(** * Reversible in-place addition without ancillas

    A shallow embedding of [shor/_add_same_size_no_controls.py]: the
    decomposition of the addition gate into controlled-NOT and
    controlled-SWAP commands (Takahashi and Kunihiro's linear-size adder),
    the size-adaptation and control-lifting wrappers around it, and the two
    gate tags.

    The Python functions emit commands into an engine; here the engine is the
    list of commands received so far and every function is a computation in a
    small writer-and-exception monad.  A second layer gives the commands their
    meaning as permutations of the classical bit states, which is what the
    arithmetic theorems are about. *)

From Stdlib Require Import List ZArith Bool Lia Arith PeanoNat Permutation.
From Stdlib Require String.
Import ListNotations.

Local Open Scope Z_scope.

(** ** Qubits, gates and commands *)

(** A qubit handle is identified by its id. *)
Definition qubit := nat.

(** A register ([Qureg]) is a Python list of qubits, index 0 least
    significant. *)
Definition qureg := list qubit.

(** The basic gates the decomposition uses, applied to their operands:
    [X | q], [Swap | (a, b)] and [All(X) | qs]. *)
Inductive gate : Type :=
| X (q : qubit)
| Swap (a b : qubit)
| All_X (qs : qureg).

(** A command is one invocation [C(g, k) | (controls, operands)]: a gate
    with the qubits that control it. *)
Record command : Type := Cmd { controls : list qubit; action : gate }.

(** The three controlled gates the source names. *)
Definition cnot (c t : qubit) : command := Cmd [c] (X t).
Definition cnots (c : qubit) (ts : qureg) : command := Cmd [c] (All_X ts).
Definition cswap (c a b : qubit) : command := Cmd [c] (Swap a b).

(** ** The emission monad *)

Inductive exn : Type :=
| AssertionError
| IndexError
| NotImplementedError
| RecursionError
| NotMergeable (msg : String.string).

(** The engine is the sequence of commands received so far. *)
Definition engine := list command.

(** A computation takes the engine and gives back the engine with the
    commands it emitted appended, and either a value or the exception that
    stopped it.  Commands emitted before an exception stay in the engine. *)
Definition M (A : Type) : Type := engine -> engine * (exn + A).

Definition ret {A} (a : A) : M A := fun e => (e, inr a).

Definition raise {A} (x : exn) : M A := fun e => (e, inl x).

Definition bind {A B} (m : M A) (k : A -> M B) : M B :=
  fun e =>
    match m e with
    | (e', inl x) => (e', inl x)
    | (e', inr a) => k a e'
    end.

Notation "x <- m ;; k" := (bind m (fun x => k))
  (at level 61, m at next level, right associativity).
Notation "m ;; k" := (bind m (fun _ => k))
  (at level 61, right associativity).

(** [g | qubits]: the engine receives one command. *)
Definition emit (c : command) : M unit := fun e => (e ++ [c], inr tt).

(** [for x in xs: body(x)]. *)
Fixpoint for_each {A} (xs : list A) (body : A -> M unit) : M unit :=
  match xs with
  | [] => ret tt
  | x :: xs' => body x ;; for_each xs' body
  end.

(** [reg[i]] with Python's indexing: a negative index counts from the end,
    an index out of range raises [IndexError]. *)
Definition getitem (reg : qureg) (i : Z) : M qubit :=
  let len := Z.of_nat (length reg) in
  let j := if i <? 0 then i + len else i in
  if (j <? 0) || (len <=? j) then raise IndexError
  else match nth_error reg (Z.to_nat j) with
       | Some q => ret q
       | None => raise IndexError
       end.

(** [range(n)]. *)
Definition range (n : nat) : list nat := seq 0 n.

(** ** The equal-size adder *)

(** [do_addition_with_same_size_and_no_controls(eng, input_reg, target_reg)]. *)
Definition do_addition_with_same_size_and_no_controls
    (input_reg target_reg : qureg) : M unit :=
  if negb (length input_reg =? length target_reg)%nat then raise AssertionError
  else
    let n := length target_reg in
    if (n =? 0)%nat then ret tt
    else
      carry_bit <- getitem input_reg (-1) ;;
      (* (1) Dirty MSB correction. *)
      emit (cnots carry_bit (rev (removelast input_reg ++ target_reg))) ;;
      (* (2) Ripple forward. *)
      for_each (range (n - 1)) (fun i =>
        t <- getitem target_reg (Z.of_nat i) ;;
        emit (cnot carry_bit t) ;;
        t <- getitem target_reg (Z.of_nat i) ;;
        a <- getitem input_reg (Z.of_nat i) ;;
        emit (cswap t carry_bit a)) ;;
      (* (3) High bit toggle. *)
      t <- getitem target_reg (-1) ;;
      emit (cnot carry_bit t) ;;
      (* (4) Ripple backward. *)
      for_each (rev (range (n - 1))) (fun i =>
        t <- getitem target_reg (Z.of_nat i) ;;
        a <- getitem input_reg (Z.of_nat i) ;;
        emit (cswap t carry_bit a) ;;
        a <- getitem input_reg (Z.of_nat i) ;;
        t <- getitem target_reg (Z.of_nat i) ;;
        emit (cnot a t)) ;;
      (* (5) Dirty MSB correction. *)
      emit (cnots carry_bit (removelast input_reg ++ target_reg)).

(** ** The wrappers *)

(** [do_addition_no_controls(eng, input_reg, target_reg)].  The function
    calls itself on the truncated register; [depth] is the number of frames
    the interpreter still allows, and a call with none left raises
    [RecursionError]. *)
Fixpoint do_addition_no_controls (depth : nat)
    (input_reg target_reg : qureg) : M unit :=
  match depth with
  | O => raise RecursionError
  | S depth' =>
      (* When input is larger, just ignore its high bits. *)
      if (length target_reg <=? length input_reg)%nat then
        do_addition_no_controls depth'
          (firstn (length target_reg) input_reg) target_reg ;;
        ret tt
      else
        (* When target is larger, need to get fancier. *)
        raise NotImplementedError
  end.

(** [do_addition(eng, input_reg, target_reg, dirty, controls)]. *)
Definition do_addition (depth : nat) (input_reg target_reg : qureg)
    (dirty : qubit) (ctrls : list qubit) : M unit :=
  if (length ctrls =? 0)%nat then
    do_addition_no_controls depth input_reg target_reg
  else
    (* Remove controls with double-add-invert trick. *)
    let expanded := [dirty] ++ target_reg in
    for_each (range 2) (fun _ =>
      do_addition_no_controls depth input_reg expanded ;;
      emit (Cmd ctrls (All_X expanded)) ;;
      emit (Cmd [] (All_X expanded))).

(** ** Subtraction by scoped inversion *)

(** Modelled from the spec: the inverse of a command, for
    [projectq.ops] is not among the sources.  The spec states that the
    controlled-NOT, the controlled-SWAP and the multi-target controlled-NOT
    are each their own inverse. *)
Definition get_inverse_command (c : command) : command := c.

(** Modelled from the spec: [with Dagger(eng): body], for [projectq.meta] is
    not among the sources.  The spec describes it as a recording combinator:
    the commands of the block are recorded into a buffer, and the buffer is
    replayed in reverse order with every command replaced by its inverse.  A
    block that raises sends nothing. *)
Definition Dagger (body : M unit) : M unit :=
  fun e =>
    match body [] with
    | (recorded, inr _) => (e ++ rev (map get_inverse_command recorded), inr tt)
    | (_, inl x) => (e, inl x)
    end.

(** [do_subtraction(eng, input_reg, target_reg, dirty, controls)]. *)
Definition do_subtraction (depth : nat) (input_reg target_reg : qureg)
    (dirty : qubit) (ctrls : list qubit) : M unit :=
  Dagger (do_addition depth input_reg target_reg dirty ctrls).

(** [do_subtraction_no_controls(eng, input_reg, target_reg)]. *)
Definition do_subtraction_no_controls (depth : nat)
    (input_reg target_reg : qureg) : M unit :=
  Dagger (do_addition_no_controls depth input_reg target_reg).

(** ** The gate tags *)

Module Tags.

Import String.StringSyntax.
Local Open Scope string_scope.

(** An instance of one of the two gate classes; neither carries data. *)
Inductive basic_gate : Type :=
| AdditionGate
| SubtractionGate.

(** [get_inverse(self)]. *)
Definition get_inverse (self : basic_gate) : basic_gate :=
  match self with
  | AdditionGate => SubtractionGate
  | SubtractionGate => AdditionGate
  end.

(** The message both classes raise [NotMergeable] with. *)
Definition no_get_merged : String.string :=
  "BasicGate: No get_merged() implemented.".

(** [get_merged(self, other)], for an [other] of any type. *)
Definition get_merged {A : Type} (self : basic_gate) (other : A)
    : exn + basic_gate :=
  match self with
  | AdditionGate => inl (NotMergeable no_get_merged)
  | SubtractionGate => inl (NotMergeable no_get_merged)
  end.

End Tags.

(** ** Executing commands on classical bits *)

(** The value of every qubit. *)
Definition state := qubit -> bool.

Definition update (s : state) (q : qubit) (v : bool) : state :=
  fun x => if Nat.eqb x q then v else s x.

(** A controlled gate fires iff all its control bits are 1. *)
Definition enabled (cs : list qubit) (s : state) : bool := forallb s cs.

(** Modelled from the spec: the action of the primitives of [projectq.ops]
    (not among the sources) on classical bits.  [X] inverts its qubit, [Swap]
    exchanges its two qubits, a controlled gate acts when all its controls are
    1, and [All(X)] applies [X] to each qubit of the list in turn, each under
    the controls of the command. *)
Definition apply_X (cs : list qubit) (q : qubit) (s : state) : state :=
  if enabled cs s then update s q (negb (s q)) else s.

(** Modelled from the spec: a controlled [Swap] of [projectq.ops] (not among
    the sources) exchanges the values of its two qubits when all controls
    are 1. *)
Definition apply_Swap (cs : list qubit) (a b : qubit) (s : state) : state :=
  if enabled cs s then update (update s a (s b)) b (s a) else s.

(** Modelled from the spec: the action of one command, by the gate of
    [projectq.ops] (not among the sources) it carries. *)
Definition apply (c : command) (s : state) : state :=
  match action c with
  | X q => apply_X (controls c) q s
  | Swap a b => apply_Swap (controls c) a b s
  | All_X qs => fold_left (fun s' q => apply_X (controls c) q s') qs s
  end.

(** Executing a command sequence in program order. *)
Definition run (cmds : list command) (s : state) : state :=
  fold_left (fun s' c => apply c s') cmds s.

(** The unsigned integer a register holds, little-endian. *)
Fixpoint value (s : state) (reg : qureg) : Z :=
  match reg with
  | [] => 0
  | q :: reg' => Z.b2z (s q) + 2 * value s reg'
  end.

(** A state in which the register [reg] holds the low bits of [v] and every
    other qubit is as in [s]. *)
Fixpoint store (reg : qureg) (v : Z) (s : state) : state :=
  match reg with
  | [] => s
  | q :: reg' => update (store reg' (v / 2) s) q (Z.odd v)
  end.

(** ** The command sequence of the equal-size adder, in closed form *)

Definition ripple_forward (carry : qubit) (pairs : list (qubit * qubit))
    : list command :=
  flat_map (fun p => [cnot carry (snd p); cswap (snd p) carry (fst p)]) pairs.

Definition ripple_backward (carry : qubit) (pairs : list (qubit * qubit))
    : list command :=
  flat_map (fun p => [cswap (snd p) carry (fst p); cnot (fst p) (snd p)])
           (rev pairs).

(** The five phases for [input_reg = lo ++ [carry]] and
    [target_reg = tlo ++ [th]]; a pair of [combine lo tlo] is
    [(input_reg[i], target_reg[i])]. *)
Definition five_phases (lo : qureg) (carry : qubit) (tlo : qureg) (th : qubit)
    : list command :=
  [cnots carry (rev (lo ++ tlo ++ [th]))]
  ++ ripple_forward carry (combine lo tlo)
  ++ [cnot carry th]
  ++ ripple_backward carry (combine lo tlo)
  ++ [cnots carry (lo ++ tlo ++ [th])].

Definition same_size_commands (input_reg target_reg : qureg) : list command :=
  match target_reg with
  | [] => []
  | _ :: _ =>
      five_phases (removelast input_reg) (last input_reg O)
                  (removelast target_reg) (last target_reg O)
  end.

(** The forward and backward ripples nested around what they enclose. *)
Fixpoint ripple (carry : qubit) (pairs : list (qubit * qubit))
    (mid : list command) : list command :=
  match pairs with
  | [] => mid
  | (a, t) :: pairs' =>
      [cnot carry t; cswap t carry a]
      ++ ripple carry pairs' mid
      ++ [cswap t carry a; cnot a t]
  end.

(** ** The loop of [do_addition], for a given pass *)

(** The commands the loop of [do_addition] sends if each of its two calls
    of [do_addition_no_controls] sends the commands [pass]. *)
Definition double_add_invert (pass : list command) (ctrls : list qubit)
    (expanded : qureg) : list command :=
  flat_map (fun _ : nat =>
              pass ++ [Cmd ctrls (All_X expanded); Cmd [] (All_X expanded)])
           (range 2).

(** ** Auxiliary notions for the proofs *)

(** Two states that give every qubit the same value. *)
Definition same (s s' : state) : Prop := forall q, s q = s' q.

(** Whether [All(X) | qs] inverts [q]: the parity of the occurrences of [q]
    in [qs]. *)
Fixpoint hits (q : qubit) (qs : qureg) : bool :=
  match qs with
  | [] => false
  | x :: qs' => xorb (Nat.eqb q x) (hits q qs')
  end.

(** The registers of one addition are made of distinct qubits. *)
Definition well_formed (input_reg target_reg : qureg) : Prop :=
  NoDup (input_reg ++ target_reg).

(** A command that undoes itself. *)
Definition involutive (c : command) : Prop :=
  forall s, same (apply c (apply c s)) s.

(** ** The loop of [do_addition] around any callee *)

(** The [for _ in range(2)] loop of [do_addition], with the call it makes
    first in each round left open. *)
Definition double_add_invert_loop (callee : M unit) (ctrls : list qubit)
    (expanded : qureg) : M unit :=
  for_each (range 2) (fun _ =>
    callee ;;
    emit (Cmd ctrls (All_X expanded)) ;;
    emit (Cmd [] (All_X expanded))).

(** ** What a command mentions *)

(** The qubits a command names, controls first. *)
Definition command_qubits (c : command) : list qubit :=
  controls c ++
  match action c with
  | X q => [q]
  | Swap a b => [a; b]
  | All_X qs => qs
  end.

(** The three kinds of command the adder sends. *)
Definition is_cnot (c : command) : bool :=
  match c with
  | Cmd [_] (X _) => true
  | _ => false
  end.

Definition is_cswap (c : command) : bool :=
  match c with
  | Cmd [_] (Swap _ _) => true
  | _ => false
  end.

Definition is_cnots (c : command) : bool :=
  match c with
  | Cmd [_] (All_X _) => true
  | _ => false
  end.

(** ** The registered decomposition rules *)

Module Rules.

(** [xs[i]] for a non-negative index into a Python sequence. *)
Definition item {A : Type} (xs : list A) (i : nat) : M A :=
  match nth_error xs i with
  | Some x => ret x
  | None => raise IndexError
  end.

(** Modelled from the spec: a command as the decomposers see it, for the
    [Command] class is not among the sources: the quregs it acts on
    ([cmd.qubits]), its controls ([cmd.control_qubits]) and the allocated
    qubits it leaves alone ([cmd.untouched_qubits()]). *)
Record Command : Type := {
  qubits : list qureg;
  control_qubits : list qubit;
  untouched_qubits : list qubit
}.

(** Modelled from the spec: a [DecompositionRule], for the class is not among
    the sources: the gate class it is keyed by, its decomposer and the two
    selection keys, each absent when the rule does not give it. *)
Record DecompositionRule : Type := {
  gate_class : Tags.basic_gate;
  gate_decomposer : nat -> Command -> M unit;
  max_controls : option nat;
  allocated_but_untouched_bits_required : option nat
}.

(** The four decomposers; Python evaluates the arguments of the call in
    the order they are written, before the call. *)
Definition decompose_addition (depth : nat) (cmd : Command) : M unit :=
  input_reg <- item (qubits cmd) 0 ;;
  target_reg <- item (qubits cmd) 1 ;;
  dirty <- item (untouched_qubits cmd) 0 ;;
  do_addition depth input_reg target_reg dirty (control_qubits cmd).

Definition decompose_addition_no_controls (depth : nat) (cmd : Command)
    : M unit :=
  input_reg <- item (qubits cmd) 0 ;;
  target_reg <- item (qubits cmd) 1 ;;
  do_addition_no_controls depth input_reg target_reg.

Definition decompose_subtraction (depth : nat) (cmd : Command) : M unit :=
  input_reg <- item (qubits cmd) 0 ;;
  target_reg <- item (qubits cmd) 1 ;;
  dirty <- item (untouched_qubits cmd) 0 ;;
  do_subtraction depth input_reg target_reg dirty (control_qubits cmd).

Definition decompose_subtraction_no_controls (depth : nat) (cmd : Command)
    : M unit :=
  input_reg <- item (qubits cmd) 0 ;;
  target_reg <- item (qubits cmd) 1 ;;
  do_subtraction_no_controls depth input_reg target_reg.

(** [all_defined_decomposition_rules]. *)
Definition all_defined_decomposition_rules : list DecompositionRule :=
  [ {| gate_class := Tags.AdditionGate;
       gate_decomposer := decompose_addition;
       max_controls := None;
       allocated_but_untouched_bits_required := Some 1%nat |};
    {| gate_class := Tags.AdditionGate;
       gate_decomposer := decompose_addition_no_controls;
       max_controls := Some 0%nat;
       allocated_but_untouched_bits_required := None |};
    {| gate_class := Tags.SubtractionGate;
       gate_decomposer := decompose_subtraction;
       max_controls := None;
       allocated_but_untouched_bits_required := Some 1%nat |};
    {| gate_class := Tags.SubtractionGate;
       gate_decomposer := decompose_subtraction_no_controls;
       max_controls := Some 0%nat;
       allocated_but_untouched_bits_required := None |} ].

End Rules.

(** ** The increment test *)

Module IncrementTest.

(** The two high-level commands the test compares against, built by
    [Subtract.generate_command((input, target))] and
    [MultiNot.generate_command(reg)]. *)
Inductive gate_command : Type :=
| Subtract (regs : qureg * qureg)
| MultiNot (reg : qureg).

(** The list [test_do_increment_with_no_controls_and_n_dirty] requires
    [backend.received_commands] to be. *)
Definition expected_received_commands (target dirty : qureg)
    : list gate_command :=
  [ Subtract (dirty, target);
    MultiNot dirty;
    Subtract (dirty, target);
    MultiNot dirty ].

(** The elementary commands of a list of high-level commands, for given
    decompositions of the two gates. *)
Definition decomposed (subtract : qureg -> qureg -> list command)
    (multi_not : qureg -> list command) (cs : list gate_command)
    : list command :=
  flat_map (fun c =>
              match c with
              | Subtract (input_reg, target_reg) =>
                  subtract input_reg target_reg
              | MultiNot reg => multi_not reg
              end) cs.

End IncrementTest.

(** * Properties *)

Example five_phases_n2 :
  do_addition_with_same_size_and_no_controls [0; 1]%nat [2; 3]%nat [] =
  ([cnots 1 [3; 2; 0]; cnot 1 2; cswap 2 1 0; cnot 1 3;
    cswap 2 1 0; cnot 0 2; cnots 1 [0; 2; 3]]%nat, inr tt).
Proof. reflexivity. Qed.

(** ** What the equal-size adder emits *)

Section Emission.

Lemma bind_ok {A B} (m : M A) (k : A -> M B) e e' a :
  m e = (e', inr a) -> bind m k e = k a e'.
Proof. intros H. unfold bind. now rewrite H. Qed.

Lemma bind_raise {A B} (m : M A) (k : A -> M B) e e' x :
  m e = (e', inl x) -> bind m k e = (e', inl x).
Proof. intros H. unfold bind. now rewrite H. Qed.

Lemma getitem_nat (reg : qureg) (i : nat) (d : qubit) (e : engine) :
  (i < length reg)%nat -> getitem reg (Z.of_nat i) e = (e, inr (nth i reg d)).
Proof.
  intros Hi. unfold getitem.
  destruct (Z.ltb_spec (Z.of_nat i) 0) as [Hneg | _]; [lia |].
  destruct (Z.ltb_spec (Z.of_nat i) 0) as [Hneg | _]; [lia |].
  destruct (Z.leb_spec (Z.of_nat (length reg)) (Z.of_nat i)) as [Hge | _];
    [lia |].
  cbn [orb]. rewrite Nat2Z.id.
  destruct (nth_error reg i) as [q |] eqn:Hq.
  - now rewrite (nth_error_nth _ _ d Hq).
  - apply nth_error_None in Hq. lia.
Qed.

Lemma getitem_last (reg : qureg) (d : qubit) (e : engine) :
  reg <> [] -> getitem reg (-1) e = (e, inr (last reg d)).
Proof.
  intros Hne.
  destruct (exists_last Hne) as [front [q ->]].
  rewrite last_last. unfold getitem. rewrite length_app. cbn [length].
  change (-1 <? 0) with true. cbv iota.
  destruct (Z.ltb_spec (-1 + Z.of_nat (length front + 1)) 0); [lia |].
  destruct (Z.leb_spec (Z.of_nat (length front + 1))
                       (-1 + Z.of_nat (length front + 1))); [lia |].
  cbn [orb].
  replace (Z.to_nat (-1 + Z.of_nat (length front + 1)))
    with (length front) by lia.
  now rewrite nth_error_app2, Nat.sub_diag by lia.
Qed.

Lemma for_each_emits {A} (xs : list A) (body : A -> M unit)
    (f : A -> list command) :
  (forall x e, In x xs -> body x e = (e ++ f x, inr tt)) ->
  forall e, for_each xs body e = (e ++ flat_map f xs, inr tt).
Proof.
  induction xs as [| x xs IH]; intros Hbody e; cbn [for_each flat_map].
  - unfold ret. now rewrite app_nil_r.
  - rewrite (bind_ok _ _ e _ tt (Hbody x e (or_introl eq_refl))).
    rewrite IH by (intros; apply Hbody; now right).
    now rewrite app_assoc.
Qed.

Lemma pairs_of_indices (lo tlo : qureg) (d : qubit) :
  length lo = length tlo ->
  map (fun i => (nth i lo d, nth i tlo d)) (seq 0 (length lo)) = combine lo tlo.
Proof.
  revert tlo. induction lo as [| a lo IH]; intros [| t tlo] Hlen;
    try discriminate; cbn [length seq map combine]; [reflexivity |].
  f_equal. rewrite <- seq_shift, map_map. cbn [nth]. apply IH.
  now injection Hlen.
Qed.

(** With registers of equal length the adder runs to completion and the
    engine receives exactly [same_size_commands]. *)
Lemma do_addition_with_same_size_emits (input_reg target_reg : qureg) e :
  length input_reg = length target_reg ->
  do_addition_with_same_size_and_no_controls input_reg target_reg e =
  (e ++ same_size_commands input_reg target_reg, inr tt).
Proof.
  intros Hlen. unfold do_addition_with_same_size_and_no_controls.
  rewrite Hlen, Nat.eqb_refl. cbn [negb].
  destruct target_reg as [| t0 tr] eqn:Htgt.
  { cbn. unfold ret. now rewrite app_nil_r. }
  rewrite <- Htgt in *.
  assert (Hti : target_reg <> []) by (rewrite Htgt; discriminate).
  assert (Hii : input_reg <> [])
    by (intros ->; rewrite Htgt in Hlen; discriminate).
  replace (length target_reg =? 0)%nat with false
    by (rewrite Htgt; reflexivity).
  replace (same_size_commands input_reg target_reg)
    with (five_phases (removelast input_reg) (last input_reg O)
                      (removelast target_reg) (last target_reg O))
    by (rewrite Htgt; reflexivity).
  clear Htgt t0 tr.
  destruct (exists_last Hii) as [lo [c Hi]].
  destruct (exists_last Hti) as [tlo [th Ht]].
  subst input_reg target_reg. clear Hii Hti.
  rewrite !removelast_last, !last_last.
  rewrite !length_app in *. cbn [length] in *.
  assert (Hlo : length lo = length tlo) by lia. clear Hlen.
  replace (length tlo + 1 - 1)%nat with (length lo) by lia.
  rewrite (bind_ok _ _ _ _ _ (getitem_last (lo ++ [c]) O e ltac:(now destruct lo))).
  rewrite last_last.
  unfold emit at 1. cbn [bind].
  unfold range.
  set (fwd := fun i : nat =>
                [cnot c (nth i tlo O); cswap (nth i tlo O) c (nth i lo O)]).
  set (bwd := fun i : nat =>
                [cswap (nth i tlo O) c (nth i lo O);
                 cnot (nth i lo O) (nth i tlo O)]).
  assert (Hget : forall (x : nat) e0, (x < length lo)%nat ->
            getitem (tlo ++ [th]) (Z.of_nat x) e0 = (e0, inr (nth x tlo O))
            /\ getitem (lo ++ [c]) (Z.of_nat x) e0 = (e0, inr (nth x lo O))).
  { intros x e0 Hx. split.
    - rewrite (getitem_nat _ _ O) by (rewrite length_app; cbn; lia).
      now rewrite app_nth1 by lia.
    - rewrite (getitem_nat _ _ O) by (rewrite length_app; cbn; lia).
      now rewrite app_nth1 by lia. }
  erewrite bind_ok.
  2:{ apply (for_each_emits _ _ fwd). intros x e0 Hx. apply in_seq in Hx.
      destruct (Hget x e0 ltac:(lia)) as [Ht Hi].
      rewrite (bind_ok _ _ _ _ _ Ht). unfold emit at 1. cbn [bind].
      destruct (Hget x (e0 ++ [cnot c (nth x tlo O)]) ltac:(lia)) as [Ht' Hi'].
      rewrite (bind_ok _ _ _ _ _ Ht'), (bind_ok _ _ _ _ _ Hi').
      unfold emit, fwd. now rewrite <- app_assoc. }
  rewrite (bind_ok _ _ _ _ _ (getitem_last (tlo ++ [th]) O _ ltac:(now destruct tlo))).
  rewrite last_last. unfold emit at 1. cbn [bind].
  erewrite bind_ok.
  2:{ apply (for_each_emits _ _ bwd). intros x e0 Hx.
      apply in_rev, in_seq in Hx.
      destruct (Hget x e0 ltac:(lia)) as [Ht Hi].
      rewrite (bind_ok _ _ _ _ _ Ht), (bind_ok _ _ _ _ _ Hi).
      unfold emit at 1. cbn [bind].
      destruct (Hget x (e0 ++ [cswap (nth x tlo O) c (nth x lo O)])
                  ltac:(lia)) as [Ht' Hi'].
      rewrite (bind_ok _ _ _ _ _ Hi'), (bind_ok _ _ _ _ _ Ht').
      unfold emit, bwd. now rewrite <- app_assoc. }
  unfold emit. f_equal.
  unfold five_phases, ripple_forward, ripple_backward.
  rewrite <- (pairs_of_indices lo tlo O Hlo), <- map_rev, !flat_map_concat_map,
    !map_map.
  cbn [fst snd]. fold fwd bwd. rewrite <- !flat_map_concat_map.
  now rewrite <- !app_assoc.
Qed.

End Emission.

(** ** Executing commands: general facts *)

Section Execution.

Lemma update_same (s : state) q v : update s q v q = v.
Proof. unfold update. now rewrite Nat.eqb_refl. Qed.

Lemma update_other (s : state) q v x : x <> q -> update s q v x = s x.
Proof. intros H. unfold update. now apply Nat.eqb_neq in H as ->. Qed.

Lemma enabled_ext cs s s' : same s s' -> enabled cs s = enabled cs s'.
Proof.
  intros H. unfold enabled. induction cs as [| c cs IH]; cbn; [reflexivity |].
  now rewrite H, IH.
Qed.

Lemma enabled_agree cs s s' :
  (forall c, In c cs -> s c = s' c) -> enabled cs s = enabled cs s'.
Proof.
  unfold enabled. induction cs as [| c cs IH]; intros H; cbn [forallb];
    [reflexivity |].
  rewrite (H c (or_introl eq_refl)), IH; [reflexivity |].
  intros; apply H; now right.
Qed.

Lemma enabled_update cs s x v :
  ~ In x cs -> enabled cs (update s x v) = enabled cs s.
Proof.
  unfold enabled. induction cs as [| c cs IH]; cbn; intros H; [reflexivity |].
  rewrite update_other, IH; intuition congruence.
Qed.

Lemma apply_X_ext cs x s s' :
  same s s' -> same (apply_X cs x s) (apply_X cs x s').
Proof.
  intros H q. unfold apply_X. rewrite (enabled_ext cs s s' H).
  destruct (enabled cs s'); [| apply H].
  unfold update. rewrite !H. reflexivity.
Qed.

Lemma apply_ext c s s' : same s s' -> same (apply c s) (apply c s').
Proof.
  destruct c as [cs [x | a b | qs]]; unfold apply; cbn [action controls].
  - apply apply_X_ext.
  - intros H q. unfold apply_Swap. rewrite (enabled_ext cs s s' H).
    destruct (enabled cs s'); [| apply H].
    unfold update. rewrite !H. reflexivity.
  - revert s s'. induction qs as [| x qs IH]; intros s s' H; cbn [fold_left].
    + exact H.
    + apply IH. now apply apply_X_ext.
Qed.

Lemma run_ext cmds s s' : same s s' -> same (run cmds s) (run cmds s').
Proof.
  unfold run. revert s s'.
  induction cmds as [| c cmds IH]; intros s s' H; cbn [fold_left].
  - exact H.
  - apply IH. now apply apply_ext.
Qed.

Lemma run_app l1 l2 s : run (l1 ++ l2) s = run l2 (run l1 s).
Proof. apply fold_left_app. Qed.

Lemma run_cons c l s : run (c :: l) s = run l (apply c s).
Proof. reflexivity. Qed.

(** A multi-target NOT whose controls are not among its targets inverts,
    when its controls are all 1, the qubits that occur an odd number of
    times in the list. *)
Lemma apply_All_X cs qs s q :
  (forall x, In x qs -> ~ In x cs) ->
  apply (Cmd cs (All_X qs)) s q =
  if enabled cs s then xorb (s q) (hits q qs) else s q.
Proof.
  unfold apply. cbn [action controls]. revert s.
  induction qs as [| x qs IH]; intros s Hcs; cbn [fold_left hits].
  - destruct (enabled cs s); [now rewrite xorb_false_r | reflexivity].
  - rewrite IH by (intros; apply Hcs; now right).
    unfold apply_X. destruct (enabled cs s) eqn:En.
    + rewrite enabled_update, En by (apply Hcs; now left).
      unfold update. destruct (Nat.eqb_spec q x) as [-> | _].
      * now destruct (s x), (hits x qs).
      * now destruct (s q), (hits q qs).
    + now rewrite En.
Qed.

Lemma hits_app q l1 l2 : hits q (l1 ++ l2) = xorb (hits q l1) (hits q l2).
Proof.
  induction l1 as [| x l1 IH]; cbn [app hits].
  - now destruct (hits q l2).
  - rewrite IH. now rewrite xorb_assoc.
Qed.

Lemma hits_rev q l : hits q (rev l) = hits q l.
Proof.
  induction l as [| x l IH]; cbn [rev hits]; [reflexivity |].
  rewrite hits_app, IH. cbn [hits]. rewrite xorb_false_r. apply xorb_comm.
Qed.

Lemma hits_absent q l : ~ In q l -> hits q l = false.
Proof.
  induction l as [| x l IH]; cbn [hits In]; intros H; [reflexivity |].
  rewrite IH by tauto.
  destruct (Nat.eqb_spec q x); [subst; tauto | reflexivity].
Qed.

Lemma hits_present q l : NoDup l -> In q l -> hits q l = true.
Proof.
  induction 1 as [| x l Hx Hnd IH]; cbn [hits In]; [tauto |].
  intros [-> | Hq].
  - now rewrite Nat.eqb_refl, hits_absent.
  - rewrite IH by assumption.
    destruct (Nat.eqb_spec q x); [subst; tauto | reflexivity].
Qed.

(** ** The value of a register *)

Lemma value_ext s s' reg :
  (forall q, In q reg -> s q = s' q) -> value s reg = value s' reg.
Proof.
  induction reg as [| q reg IH]; cbn [value]; intros H; [reflexivity |].
  rewrite H, IH; [reflexivity | intros; apply H; now right | now left].
Qed.

Lemma value_app s l1 l2 :
  value s (l1 ++ l2) = value s l1 + 2 ^ Z.of_nat (length l1) * value s l2.
Proof.
  induction l1 as [| q l1 IH].
  - cbn [app value length]. change (2 ^ Z.of_nat 0) with 1. lia.
  - cbn [app value length]. rewrite IH, Nat2Z.inj_succ, Z.pow_succ_r by lia.
    lia.
Qed.

Lemma value_range s reg : 0 <= value s reg < 2 ^ Z.of_nat (length reg).
Proof.
  induction reg as [| q reg IH]; cbn [value length].
  - change (2 ^ Z.of_nat 0) with 1. lia.
  - rewrite Nat2Z.inj_succ, Z.pow_succ_r by lia.
    destruct (s q); cbn [Z.b2z]; lia.
Qed.

(** Registers holding the same value hold the same bits. *)
Lemma value_inj s s' reg :
  value s reg = value s' reg -> forall q, In q reg -> s q = s' q.
Proof.
  induction reg as [| x reg IH]; cbn [value In]; [tauto |].
  intros Hv q Hq.
  assert (s x = s' x /\ value s reg = value s' reg) as [Hx Hr]
    by (destruct (s x), (s' x); cbn [Z.b2z] in Hv; split;
        (reflexivity || lia)).
  destruct Hq as [<- | Hq]; [exact Hx | now apply IH].
Qed.

(** Inverting every bit of a register turns [v] into [2^len - 1 - v]. *)
Lemma value_inverted s s' reg :
  (forall q, In q reg -> s' q = negb (s q)) ->
  value s' reg = 2 ^ Z.of_nat (length reg) - 1 - value s reg.
Proof.
  induction reg as [| q reg IH]; cbn [value length]; intros H.
  - reflexivity.
  - rewrite Nat2Z.inj_succ, Z.pow_succ_r by lia.
    rewrite H, IH; [| intros; apply H; now right | now left].
    destruct (s q); cbn [negb Z.b2z]; lia.
Qed.

End Execution.

(** ** The ripple: a carry-in adder on the low bits *)

Section Ripple.

Ltac eqb_simpl :=
  repeat match goal with
    | |- context [Nat.eqb ?x ?x] => rewrite (Nat.eqb_refl x)
    | H : ?x <> ?y |- context [Nat.eqb ?x ?y] =>
        rewrite (proj2 (Nat.eqb_neq x y) H)
    | H : ?y <> ?x |- context [Nat.eqb ?x ?y] =>
        rewrite (proj2 (Nat.eqb_neq x y) (not_eq_sym H))
    end.

Lemma apply_cnot c t s q :
  apply (cnot c t) s q = if Nat.eqb q t then xorb (s t) (s c) else s q.
Proof.
  unfold apply, cnot, apply_X, enabled, update. cbn.
  destruct (s c); cbn.
  - destruct (Nat.eqb q t); [now destruct (s t) | reflexivity].
  - destruct (Nat.eqb_spec q t) as [-> | _]; [| reflexivity].
    now rewrite xorb_false_r.
Qed.

Lemma apply_cswap t c a s q :
  apply (cswap t c a) s q =
  if s t then (if Nat.eqb q a then s c else if Nat.eqb q c then s a else s q)
  else s q.
Proof.
  unfold apply, cswap, apply_Swap, enabled, update. cbn.
  now destruct (s t).
Qed.

Lemma ripple_nested c ps mid :
  ripple_forward c ps ++ mid ++ ripple_backward c ps = ripple c ps mid.
Proof.
  unfold ripple_forward, ripple_backward.
  induction ps as [| [a t] ps IH]; cbn [flat_map rev ripple fst snd].
  - now rewrite app_nil_r.
  - rewrite flat_map_app. cbn [flat_map fst snd app].
    rewrite <- IH, <- !app_assoc. reflexivity.
Qed.

Lemma double_mod r y P X :
  0 < P -> 0 <= r < 2 -> X = r + 2 * y -> r + 2 * (y mod P) = X mod (2 * P).
Proof.
  intros HP Hr ->.
  pose proof (Z.mod_pos_bound y P HP) as Hb.
  apply Z.mod_unique with (q := y / P); [lia |].
  pose proof (Z.div_mod y P ltac:(lia)). lia.
Qed.

(** The forward ripple, the high-bit toggle and the backward ripple together
    add the low input bits and the value of the carry qubit into the target,
    and touch nothing else. *)
Lemma ripple_adds (c th : qubit) (ps : list (qubit * qubit)) :
  NoDup (c :: th :: map fst ps ++ map snd ps) ->
  forall s,
    (forall q, ~ In q (map snd ps ++ [th]) ->
               run (ripple c ps [cnot c th]) s q = s q) /\
    value (run (ripple c ps [cnot c th]) s) (map snd ps ++ [th]) =
    (value s (map snd ps ++ [th]) + value s (map fst ps) + Z.b2z (s c))
      mod 2 ^ Z.of_nat (S (length ps)).
Proof.
  induction ps as [| [a t] ps IH]; intros Hnd s.
  - cbn [ripple map app length value run fold_left].
    apply NoDup_cons_iff in Hnd as [Hc _].
    assert (c <> th) by (cbn in Hc; intuition congruence).
    split.
    + intros q Hq. rewrite apply_cnot.
      assert (q <> th) by (cbn in Hq; intuition congruence). now eqb_simpl.
    + rewrite apply_cnot. eqb_simpl.
      change (2 ^ Z.of_nat 1) with 2.
      now destruct (s th), (s c).
  - cbn [map fst snd app] in Hnd.
    assert (Hnd' : NoDup (c :: th :: map fst ps ++ map snd ps)).
    { apply NoDup_cons_iff in Hnd as [Hc Hnd].
      apply NoDup_cons_iff in Hnd as [Hth Hnd].
      apply NoDup_cons_iff in Hnd as [_ Hnd].
      apply NoDup_remove_1 in Hnd.
      repeat (apply NoDup_cons; [cbn [In] in *; rewrite in_app_iff in *;
                                   cbn [In] in *; tauto |]).
      exact Hnd. }
    assert (Hdist : c <> th /\ c <> a /\ c <> t /\ th <> a /\ th <> t /\ a <> t
                    /\ ~ In c (map snd ps) /\ ~ In a (map snd ps)
                    /\ ~ In t (map snd ps)
                    /\ ~ In c (map fst ps) /\ ~ In a (map fst ps)
                    /\ ~ In t (map fst ps)).
    { apply NoDup_cons_iff in Hnd as [Hc Hnd].
      apply NoDup_cons_iff in Hnd as [Hth Hnd].
      apply NoDup_cons_iff in Hnd as [Ha Hnd].
      apply NoDup_remove_2 in Hnd.
      cbn [In] in *; rewrite !in_app_iff in *; cbn [In] in *.
      repeat split; try tauto; intros ->; tauto. }
    destruct Hdist as (Hcth & Hca & Hct & Htha & Htht & Hat
                       & Hcs & Has & Hts & Hcf & Haf & Htf).
    cbn [ripple]. rewrite !run_app.
    set (s1 := run [cnot c t; cswap t c a] s).
    set (s2 := run (ripple c ps [cnot c th]) s1).
    destruct (IH Hnd' s1) as [Hframe Hval]. fold s2 in Hframe, Hval.
    assert (Hs1 : forall q, s1 q =
              if Nat.eqb q t then xorb (s t) (s c)
              else if Nat.eqb q a then (if xorb (s t) (s c) then s c else s a)
              else if Nat.eqb q c then (if xorb (s t) (s c) then s a else s c)
              else s q).
    { intros q. unfold s1. cbn [run fold_left].
      rewrite apply_cswap, !apply_cnot. eqb_simpl.
      destruct (Nat.eqb_spec q t) as [-> | Hqt]; eqb_simpl.
      - now destruct (xorb (s t) (s c)).
      - destruct (Nat.eqb_spec q a) as [-> | Hqa];
          [now destruct (xorb (s t) (s c)) |].
        destruct (Nat.eqb_spec q c) as [-> | Hqc];
          now destruct (xorb (s t) (s c)). }
    assert (Hin : forall q, q = t \/ q = a \/ q = c ->
                            ~ In q (map snd ps ++ [th])).
    { intros q Hq Hin. rewrite in_app_iff in Hin. cbn [In] in Hin.
      destruct Hq as [-> | [-> | ->]]; intuition congruence. }
    assert (Hs3 : forall q,
              run [cswap t c a; cnot a t] s2 q =
              if Nat.eqb q t then xorb (xorb (s t) (s c)) (s a)
              else if Nat.eqb q a then s a
              else if Nat.eqb q c then s c
              else s2 q).
    { intros q. cbn [run fold_left].
      rewrite apply_cnot, !apply_cswap. eqb_simpl.
      destruct (Nat.eqb_spec q t) as [-> | Hqt];
        [| destruct (Nat.eqb_spec q a) as [-> | Hqa];
           [| destruct (Nat.eqb_spec q c) as [-> | Hqc]]];
        eqb_simpl;
        rewrite ?(Hframe t), ?(Hframe a), ?(Hframe c) by (apply Hin; tauto);
        rewrite ?Hs1; eqb_simpl;
        now destruct (xorb (s t) (s c)). }
    split.
    + intros q Hq. cbn [map snd app In] in Hq.
      rewrite Hs3.
      assert (Hqt : q <> t) by intuition congruence. eqb_simpl.
      destruct (Nat.eqb_spec q a) as [-> | Hqa]; [reflexivity |].
      destruct (Nat.eqb_spec q c) as [-> | Hqc]; [reflexivity |].
      rewrite Hframe, Hs1 by tauto. now eqb_simpl.
    + cbn [map fst snd app value length].
      rewrite Hs3. eqb_simpl.
      rewrite (value_ext _ s2 (map snd ps ++ [th])).
      2:{ intros q Hq. rewrite Hs3.
          destruct (Nat.eqb_spec q t) as [-> | _];
            [exfalso; revert Hq; apply Hin; tauto |].
          destruct (Nat.eqb_spec q a) as [-> | _];
            [exfalso; revert Hq; apply Hin; tauto |].
          destruct (Nat.eqb_spec q c) as [-> | _];
            [exfalso; revert Hq; apply Hin; tauto | reflexivity]. }
      rewrite Hval.
      rewrite (value_ext s1 s (map snd ps ++ [th])).
      2:{ intros q Hq. rewrite Hs1.
          destruct (Nat.eqb_spec q t) as [-> | _];
            [exfalso; revert Hq; apply Hin; tauto |].
          destruct (Nat.eqb_spec q a) as [-> | _];
            [exfalso; revert Hq; apply Hin; tauto |].
          destruct (Nat.eqb_spec q c) as [-> | _];
            [exfalso; revert Hq; apply Hin; tauto | reflexivity]. }
      rewrite (value_ext s1 s (map fst ps)).
      2:{ intros q Hq. rewrite Hs1.
          destruct (Nat.eqb_spec q t) as [-> | _]; [tauto |].
          destruct (Nat.eqb_spec q a) as [-> | _]; [tauto |].
          destruct (Nat.eqb_spec q c) as [-> | _]; [tauto | reflexivity]. }
      rewrite (Hs1 c). eqb_simpl.
      rewrite (Nat2Z.inj_succ (S (length ps))), Z.pow_succ_r by lia.
      assert (HP : 0 < 2 ^ Z.of_nat (S (length ps)))
        by (apply Z.pow_pos_nonneg; lia).
      destruct (s t), (s c), (s a); cbn [xorb Z.b2z];
        apply double_mod; lia.
Qed.

End Ripple.

(** ** The five phases *)

Section FivePhases.

Lemma map_fst_combine (lo tlo : qureg) :
  length lo = length tlo -> map fst (combine lo tlo) = lo.
Proof.
  revert tlo. induction lo as [| a lo IH]; intros [| t tlo] H;
    try discriminate; cbn; [reflexivity |].
  f_equal. apply IH. now injection H.
Qed.

Lemma map_snd_combine (lo tlo : qureg) :
  length lo = length tlo -> map snd (combine lo tlo) = tlo.
Proof.
  revert tlo. induction lo as [| a lo IH]; intros [| t tlo] H;
    try discriminate; cbn; [reflexivity |].
  f_equal. apply IH. now injection H.
Qed.

(** The five phases as the two corrections around the nested ripple. *)
Lemma five_phases_nested lo c tlo th :
  five_phases lo c tlo th =
  [cnots c (rev (lo ++ tlo ++ [th]))]
  ++ ripple c (combine lo tlo) [cnot c th]
  ++ [cnots c (lo ++ tlo ++ [th])].
Proof.
  unfold five_phases. rewrite <- ripple_nested, <- !app_assoc. reflexivity.
Qed.

Lemma inverted_sum N A B :
  0 < N -> 0 <= A < N -> 0 <= B < 2 * N ->
  2 * N - 1 - (2 * N - 1 - B + (N - 1 - A) + 1) mod (2 * N) =
  (A + N * 1 + B) mod (2 * N).
Proof.
  intros HN HA HB.
  pose proof (Z.mod_pos_bound (A + N * 1 + B) (2 * N) ltac:(lia)) as Hr.
  pose proof (Z.div_mod (A + N * 1 + B) (2 * N) ltac:(lia)) as Hdm.
  rewrite <- (Z.mod_unique (2 * N - 1 - B + (N - 1 - A) + 1) (2 * N)
                (1 - (A + N * 1 + B) / (2 * N))
                (2 * N - 1 - (A + N * 1 + B) mod (2 * N))); lia.
Qed.

Variables (lo tlo : qureg) (c th : qubit).

Hypothesis lengths_agree : length lo = length tlo.
Hypothesis registers_distinct : well_formed (lo ++ [c]) (tlo ++ [th]).

(** The distinct qubits of the two registers, rearranged. *)
Lemma well_formed_split :
  NoDup (c :: th :: lo ++ tlo) /\ NoDup (lo ++ tlo ++ [th])
  /\ ~ In c (lo ++ tlo ++ [th]).
Proof.
  pose proof registers_distinct as H. unfold well_formed in H.
  assert (Hp : Permutation ((lo ++ [c]) ++ tlo ++ [th])
                           (c :: lo ++ tlo ++ [th])).
  { rewrite <- app_assoc. symmetry. apply Permutation_middle. }
  apply (Permutation_NoDup Hp) in H.
  apply NoDup_cons_iff in H as [Hc H].
  repeat split; try assumption.
  apply NoDup_cons; [| apply (Permutation_NoDup (l := lo ++ tlo ++ [th]))].
  - intros [-> | Hin]; apply Hc; rewrite !in_app_iff in *; cbn; tauto.
  - rewrite app_assoc. symmetry. apply Permutation_cons_append.
  - exact H.
Qed.

(** Net effect of the five phases: the target receives the sum modulo
    [2^n], every qubit outside the target keeps its value. *)
Lemma five_phases_add s :
  (forall q, ~ In q (tlo ++ [th]) ->
             run (five_phases lo c tlo th) s q = s q) /\
  value (run (five_phases lo c tlo th) s) (tlo ++ [th]) =
  (value s (lo ++ [c]) + value s (tlo ++ [th]))
    mod 2 ^ Z.of_nat (length (tlo ++ [th])).
Proof.
  pose proof lengths_agree as Hlen.
  destruct well_formed_split as (Hnd & Hts & Hc).
  rewrite five_phases_nested, !run_app.
  set (ts := lo ++ tlo ++ [th]) in Hts, Hc |- *.
  set (s1 := run [cnots c (rev ts)] s).
  set (s2 := run (ripple c (combine lo tlo) [cnot c th]) s1).
  assert (Hctl : forall x l, In x l -> incl l ts -> ~ In x [c]).
  { intros x l Hx Hl [<- | []]. apply Hc, Hl, Hx. }
  assert (Hs1 : forall q, s1 q = if s c then xorb (s q) (hits q ts) else s q).
  { intros q. unfold s1. cbn [run fold_left]. unfold cnots.
    rewrite apply_All_X.
    - unfold enabled. cbn [forallb]. rewrite andb_true_r. now rewrite hits_rev.
    - intros x Hx. apply (Hctl x ts); [now apply in_rev | apply incl_refl]. }
  pose proof (ripple_adds c th (combine lo tlo)) as Hrip.
  rewrite (map_fst_combine _ _ Hlen), (map_snd_combine _ _ Hlen) in Hrip.
  destruct (Hrip Hnd s1) as [Hframe Hval]. clear Hrip. fold s2 in Hframe, Hval.
  assert (Hcn : ~ In c (tlo ++ [th])).
  { intros Hin. apply Hc. unfold ts. rewrite in_app_iff. now right. }
  assert (Hs3 : forall q, run [cnots c ts] s2 q =
                          if s c then xorb (s2 q) (hits q ts) else s2 q).
  { intros q. cbn [run fold_left]. unfold cnots. rewrite apply_All_X.
    - unfold enabled. cbn [forallb]. rewrite andb_true_r.
      rewrite (Hframe c Hcn), (Hs1 c), (hits_absent c ts Hc).
      now destruct (s c).
    - intros x Hx. apply (Hctl x ts Hx), incl_refl. }
  rewrite length_combine, <- Hlen, Nat.min_id in Hval.
  rewrite length_app, <- Hlen. cbn [length].
  replace (length lo + 1)%nat with (S (length lo)) by lia.
  destruct (s c) eqn:Ec.
  - (* the carry qubit holds 1 *)
    split.
    + intros q Hq. rewrite Hs3, (Hframe q Hq), Hs1.
      now destruct (s q), (hits q ts).
    + rewrite (value_inverted s2 _ (tlo ++ [th])).
      2:{ intros q Hq. rewrite Hs3, hits_present; [now destruct (s2 q) | exact Hts |].
          unfold ts. rewrite in_app_iff. now right. }
      rewrite Hval, Hs1, (hits_absent c ts Hc).
      rewrite (value_inverted s s1 (tlo ++ [th])).
      2:{ intros q Hq. rewrite Hs1, hits_present; [now destruct (s q) | exact Hts |].
          unfold ts. rewrite in_app_iff. now right. }
      rewrite (value_inverted s s1 lo).
      2:{ intros q Hq. rewrite Hs1, hits_present; [now destruct (s q) | exact Hts |].
          unfold ts. rewrite in_app_iff. now left. }
      rewrite (value_app s lo [c]). cbn [value]. rewrite Ec.
      change (Z.b2z (xorb true false)) with 1. change (Z.b2z true + 2 * 0) with 1.
      rewrite length_app. cbn [length].
      replace (length tlo + 1)%nat with (S (length lo)) by lia.
      rewrite Nat2Z.inj_succ, Z.pow_succ_r by lia.
      apply inverted_sum.
      * apply Z.pow_pos_nonneg; lia.
      * apply value_range.
      * pose proof (value_range s (tlo ++ [th])) as Hr.
        rewrite length_app in Hr. cbn [length] in Hr.
        replace (length tlo + 1)%nat with (S (length lo)) in Hr by lia.
        rewrite Nat2Z.inj_succ, Z.pow_succ_r in Hr by lia. exact Hr.
  - (* the carry qubit holds 0 *)
    split.
    + intros q Hq. now rewrite Hs3, (Hframe q Hq), Hs1.
    + rewrite (value_ext _ s2 (tlo ++ [th])) by (intros; apply Hs3).
      rewrite Hval, Hs1.
      rewrite (value_ext s1 s (tlo ++ [th])) by (intros; apply Hs1).
      rewrite (value_ext s1 s lo) by (intros; apply Hs1).
      rewrite (value_app s lo [c]). cbn [value]. rewrite Ec. cbn [Z.b2z].
      f_equal. lia.
Qed.

End FivePhases.

(** ** The equal-size adder as a whole *)

Section SameSize.

Lemma well_formed_disjoint input_reg target_reg q :
  well_formed input_reg target_reg -> In q input_reg -> ~ In q target_reg.
Proof.
  unfold well_formed. induction input_reg as [| x l IH]; cbn [app In];
    [tauto |].
  intros Hnd Hq Hin. apply NoDup_cons_iff in Hnd as [Hx Hnd].
  destruct Hq as [-> | Hq].
  - apply Hx. rewrite in_app_iff. now right.
  - exact (IH Hnd Hq Hin).
Qed.

(** The commands of the adder leave every qubit outside the target as it
    was and put the sum modulo [2^n] into the target. *)
Lemma same_size_commands_add input_reg target_reg :
  length input_reg = length target_reg ->
  well_formed input_reg target_reg ->
  forall s,
    (forall q, ~ In q target_reg ->
               run (same_size_commands input_reg target_reg) s q = s q) /\
    value (run (same_size_commands input_reg target_reg) s) target_reg =
    (value s input_reg + value s target_reg)
      mod 2 ^ Z.of_nat (length target_reg).
Proof.
  intros Hlen Hwf s.
  destruct target_reg as [| t0 tr] eqn:Htgt.
  - destruct input_reg; [| discriminate]. cbn. split; reflexivity.
  - rewrite <- Htgt in *.
    assert (Hti : target_reg <> []) by (rewrite Htgt; discriminate).
    assert (Hii : input_reg <> [])
      by (intros ->; rewrite Htgt in Hlen; discriminate).
    replace (same_size_commands input_reg target_reg)
      with (five_phases (removelast input_reg) (last input_reg O)
                        (removelast target_reg) (last target_reg O))
      by (rewrite Htgt; reflexivity).
    clear Htgt t0 tr.
    destruct (exists_last Hii) as [lo [c ->]].
    destruct (exists_last Hti) as [tlo [th ->]].
    rewrite !removelast_last, !last_last.
    apply five_phases_add; [| exact Hwf].
    rewrite !length_app in Hlen. cbn [length] in Hlen. lia.
Qed.

Lemma same_size_commands_count input_reg target_reg :
  length input_reg = length target_reg ->
  length (same_size_commands input_reg target_reg) =
  (4 * length target_reg - 1)%nat.
Proof.
  intros Hlen. destruct target_reg as [| t0 tr] eqn:Htgt; [reflexivity |].
  rewrite <- Htgt in *.
  assert (Hti : target_reg <> []) by (rewrite Htgt; discriminate).
  assert (Hii : input_reg <> [])
    by (intros ->; rewrite Htgt in Hlen; discriminate).
  replace (same_size_commands input_reg target_reg)
    with (five_phases (removelast input_reg) (last input_reg O)
                      (removelast target_reg) (last target_reg O))
    by (rewrite Htgt; reflexivity).
  clear Htgt t0 tr.
  destruct (exists_last Hii) as [lo [c ->]].
  destruct (exists_last Hti) as [tlo [th ->]].
  rewrite !removelast_last, !last_last.
  rewrite !length_app in *. cbn [length] in *.
  assert (Hlo : length lo = length tlo) by lia.
  assert (Hfm : forall (f : qubit * qubit -> list command) ps,
             (forall p, length (f p) = 2%nat) ->
             length (flat_map f ps) = (2 * length ps)%nat).
  { intros f ps Hf. induction ps as [| p ps IH]; [reflexivity |].
    cbn [flat_map length]. rewrite length_app, Hf, IH. lia. }
  unfold five_phases, ripple_forward, ripple_backward.
  rewrite !length_app, !Hfm by reflexivity.
  rewrite length_rev, length_combine. cbn [length]. lia.
Qed.

(** The count is linear in the register length, and zero for empty
    registers. *)
Lemma same_size_commands_linear input_reg target_reg :
  length input_reg = length target_reg ->
  (length (same_size_commands input_reg target_reg)
   <= 4 * length target_reg)%nat
  /\ (length target_reg = 0%nat ->
      same_size_commands input_reg target_reg = []).
Proof.
  intros Hlen. split.
  - rewrite same_size_commands_count by exact Hlen. lia.
  - now destruct target_reg.
Qed.

(** Two passes and two inversions each: the loop sends [2 * p + 4]
    commands for a pass of [p] commands, whatever the number of controls. *)
Lemma double_add_invert_count pass ctrls expanded :
  length (double_add_invert pass ctrls expanded) =
  (2 * length pass + 4)%nat.
Proof.
  unfold double_add_invert. cbn [range seq flat_map].
  rewrite !length_app. cbn [length]. lia.
Qed.

End SameSize.

(** ** Running a sequence and then its reverse *)

Section Inversion.

Lemma cnot_involutive c t : c <> t -> involutive (cnot c t).
Proof.
  intros Hct s q. rewrite !apply_cnot.
  destruct (Nat.eqb_spec q t) as [-> | Hq]; [| reflexivity].
  rewrite Nat.eqb_refl, (proj2 (Nat.eqb_neq c t) Hct).
  now destruct (s t), (s c).
Qed.

Lemma cswap_involutive t c a : t <> c -> t <> a -> involutive (cswap t c a).
Proof.
  intros Htc Hta s q. rewrite !apply_cswap.
  rewrite Nat.eqb_refl, (proj2 (Nat.eqb_neq t a) Hta),
    (proj2 (Nat.eqb_neq t c) Htc).
  destruct (s t); [| reflexivity].
  destruct (Nat.eqb_spec q a) as [-> | Hqa].
  - destruct (Nat.eqb_spec c a) as [Hca | _]; [now rewrite Hca | reflexivity].
  - destruct (Nat.eqb_spec q c) as [-> | _]; [| reflexivity].
    now rewrite Nat.eqb_refl.
Qed.

Lemma cnots_involutive c ts : ~ In c ts -> involutive (cnots c ts).
Proof.
  intros Hc s q. unfold cnots.
  assert (Hctl : forall x, In x ts -> ~ In x [c])
    by (intros x Hx [<- | []]; exact (Hc Hx)).
  rewrite apply_All_X by exact Hctl.
  unfold enabled at 1. cbn [forallb]. rewrite andb_true_r.
  rewrite !apply_All_X by exact Hctl.
  unfold enabled. cbn [forallb]. rewrite andb_true_r, (hits_absent c ts Hc).
  destruct (s c); cbn [xorb]; [| reflexivity].
  now destruct (s q), (hits q ts).
Qed.

Lemma run_then_reverse cmds :
  Forall involutive cmds -> forall s, same (run (cmds ++ rev cmds) s) s.
Proof.
  induction 1 as [| c cmds Hc _ IH]; intros s q; [reflexivity |].
  cbn [rev app]. rewrite run_cons, app_assoc, run_app. cbn [run fold_left].
  fold (run (cmds ++ rev cmds) (apply c s)).
  rewrite (apply_ext c _ _ (IH (apply c s))). apply Hc.
Qed.

Lemma five_phases_involutive lo c tlo th :
  length lo = length tlo ->
  well_formed (lo ++ [c]) (tlo ++ [th]) ->
  Forall involutive (five_phases lo c tlo th).
Proof.
  intros Hlen Hwf.
  destruct (well_formed_split _ _ _ _ Hwf) as (Hnd & Hts & Hc).
  assert (Hpair : forall p, In p (combine lo tlo) ->
            c <> snd p /\ snd p <> fst p).
  { intros [a t] Hp. cbn [fst snd].
    pose proof (in_combine_l _ _ _ _ Hp) as Ha.
    pose proof (in_combine_r _ _ _ _ Hp) as Ht.
    split.
    - intros <-. apply Hc. rewrite !in_app_iff. tauto.
    - intros <-.
      apply (well_formed_disjoint (lo ++ [c]) (tlo ++ [th]) t Hwf);
        rewrite in_app_iff; tauto. }
  unfold five_phases, ripple_forward, ripple_backward.
  rewrite !Forall_app.
  split; [| split; [| split; [| split]]].
  - repeat constructor. apply cnots_involutive. now rewrite <- in_rev.
  - apply Forall_flat_map, Forall_forall. intros p Hp.
    destruct (Hpair p Hp) as [H1 H2].
    repeat constructor;
      [apply cnot_involutive | apply cswap_involutive]; congruence.
  - repeat constructor. apply cnot_involutive. intros <-. apply Hc.
    rewrite !in_app_iff. cbn. tauto.
  - apply Forall_flat_map, Forall_forall. intros p Hp.
    apply in_rev in Hp. destruct (Hpair p Hp) as [H1 H2].
    repeat constructor;
      [apply cswap_involutive | apply cnot_involutive]; congruence.
  - repeat constructor. now apply cnots_involutive.
Qed.

Lemma same_size_commands_involutive input_reg target_reg :
  length input_reg = length target_reg ->
  well_formed input_reg target_reg ->
  Forall involutive (same_size_commands input_reg target_reg).
Proof.
  intros Hlen Hwf. destruct target_reg as [| t0 tr] eqn:Htgt; [constructor |].
  rewrite <- Htgt in *.
  assert (Hti : target_reg <> []) by (rewrite Htgt; discriminate).
  assert (Hii : input_reg <> [])
    by (intros ->; rewrite Htgt in Hlen; discriminate).
  replace (same_size_commands input_reg target_reg)
    with (five_phases (removelast input_reg) (last input_reg O)
                      (removelast target_reg) (last target_reg O))
    by (rewrite Htgt; reflexivity).
  clear Htgt t0 tr.
  destruct (exists_last Hii) as [lo [c ->]].
  destruct (exists_last Hti) as [tlo [th ->]].
  rewrite !removelast_last, !last_last.
  apply five_phases_involutive; [| exact Hwf].
  rewrite !length_app in Hlen. cbn [length] in Hlen. lia.
Qed.

Lemma Dagger_emits (body : M unit) cmds e :
  body [] = (cmds, inr tt) ->
  Dagger body e = (e ++ rev cmds, inr tt).
Proof.
  intros H. unfold Dagger. rewrite H. unfold get_inverse_command.
  now rewrite map_id.
Qed.

End Inversion.

(** ** The wrappers never return *)

Section Wrappers.

(** With an input register at least as long as the target the function
    calls itself again on registers of the same kind, until no frame is
    left. *)
Lemma do_addition_no_controls_recurses depth input_reg target_reg e :
  (length target_reg <= length input_reg)%nat ->
  do_addition_no_controls depth input_reg target_reg e =
  (e, inl RecursionError).
Proof.
  revert input_reg.
  induction depth as [| depth IH]; intros input_reg Hlen; [reflexivity |].
  cbn [do_addition_no_controls].
  apply Nat.leb_le in Hlen as Hleb. rewrite Hleb.
  apply bind_raise, IH. rewrite length_firstn. lia.
Qed.

Lemma do_addition_no_controls_shorter depth input_reg target_reg e :
  (length input_reg < length target_reg)%nat ->
  do_addition_no_controls (S depth) input_reg target_reg e =
  (e, inl NotImplementedError).
Proof.
  intros Hlen. cbn [do_addition_no_controls].
  now apply Nat.leb_gt in Hlen as ->.
Qed.

Lemma do_addition_no_controls_raises depth input_reg target_reg e :
  exists x,
    do_addition_no_controls depth input_reg target_reg e = (e, inl x).
Proof.
  destruct (Nat.le_gt_cases (length target_reg) (length input_reg)) as [H | H].
  - exists RecursionError. now apply do_addition_no_controls_recurses.
  - destruct depth as [| depth].
    + now exists RecursionError.
    + exists NotImplementedError. now apply do_addition_no_controls_shorter.
Qed.

Lemma do_addition_raises depth input_reg target_reg dirty ctrls e :
  exists x,
    do_addition depth input_reg target_reg dirty ctrls e = (e, inl x).
Proof.
  unfold do_addition. destruct (length ctrls =? 0)%nat.
  - apply do_addition_no_controls_raises.
  - cbn [range seq for_each].
    destruct (do_addition_no_controls_raises depth input_reg
                ([dirty] ++ target_reg) e) as [x Hx].
    exists x. apply bind_raise. now apply bind_raise.
Qed.

(** The subtraction wrappers run the same calls inside [Dagger], so they
    send nothing either. *)
Lemma do_subtraction_raises depth input_reg target_reg dirty ctrls e :
  exists x,
    do_subtraction depth input_reg target_reg dirty ctrls e = (e, inl x)
    /\ do_subtraction_no_controls depth input_reg target_reg e =
         (e, inl (if (length target_reg <=? length input_reg)%nat
                  then RecursionError
                  else match depth with
                       | O => RecursionError
                       | S _ => NotImplementedError
                       end)).
Proof.
  unfold do_subtraction, do_subtraction_no_controls, Dagger.
  destruct (do_addition_raises depth input_reg target_reg dirty ctrls [])
    as [x ->].
  exists x. split; [reflexivity |].
  destruct (Nat.leb_spec (length target_reg) (length input_reg)) as [H | H].
  - now rewrite do_addition_no_controls_recurses.
  - destruct depth; [reflexivity |].
    now rewrite do_addition_no_controls_shorter.
Qed.

End Wrappers.

(** ** Registers can hold every value *)

Section Store.

Lemma store_other reg v s q : ~ In q reg -> store reg v s q = s q.
Proof.
  revert v. induction reg as [| x reg IH]; intros v Hq; cbn [store];
    [reflexivity |].
  rewrite update_other by (intros ->; apply Hq; now left).
  apply IH. intros Hin. apply Hq. now right.
Qed.

Lemma value_store reg v s :
  NoDup reg -> value (store reg v s) reg = v mod 2 ^ Z.of_nat (length reg).
Proof.
  intros Hnd. revert v.
  induction Hnd as [| q reg Hq Hnd IH]; intros v; cbn [store value length].
  - now rewrite Z.mod_1_r.
  - rewrite update_same.
    rewrite (value_ext _ (store reg (v / 2) s) reg).
    2:{ intros x Hx. apply update_other. intros ->. contradiction. }
    rewrite IH, Nat2Z.inj_succ, Z.pow_succ_r by lia.
    apply double_mod.
    + apply Z.pow_pos_nonneg; lia.
    + destruct (Z.odd v); cbn; lia.
    + rewrite <- Z.div2_div. pose proof (Z.div2_odd v). lia.
Qed.

(** Whatever [a] and [b] below [2^n], some state has [a] in the input
    register and [b] in the target register. *)
Lemma registers_hold input_reg target_reg a b s0 :
  well_formed input_reg target_reg ->
  0 <= a < 2 ^ Z.of_nat (length input_reg) ->
  0 <= b < 2 ^ Z.of_nat (length target_reg) ->
  let s := store input_reg a (store target_reg b s0) in
  value s input_reg = a /\ value s target_reg = b.
Proof.
  intros Hwf Ha Hb s. unfold well_formed in Hwf.
  pose proof (NoDup_app_remove_r _ _ Hwf) as Hi.
  pose proof (NoDup_app_remove_l _ _ Hwf) as Ht.
  split; unfold s.
  - rewrite value_store by exact Hi. now apply Z.mod_small.
  - rewrite (value_ext _ (store target_reg b s0) target_reg).
    + rewrite value_store by exact Ht. now apply Z.mod_small.
    + intros q Hq. apply store_other. intros Hin.
      exact (well_formed_disjoint _ _ q Hwf Hin Hq).
Qed.

End Store.

(** ** Subtraction *)

Section Subtraction.

Variables input_reg target_reg : qureg.
Hypothesis Hlen : length input_reg = length target_reg.
Hypothesis Hwf : well_formed input_reg target_reg.

Let cmds := same_size_commands input_reg target_reg.

Lemma reverse_then_run s : same (run (rev cmds ++ cmds) s) s.
Proof.
  pose proof (run_then_reverse (rev cmds)) as H.
  rewrite rev_involutive in H. apply H, Forall_rev.
  now apply same_size_commands_involutive.
Qed.

(** The reversed sequence subtracts: it is the inverse permutation of the
    addition. *)
Lemma reversed_commands_subtract s :
  (forall q, ~ In q target_reg -> run (rev cmds) s q = s q) /\
  value (run (rev cmds) s) target_reg =
  (value s target_reg - value s input_reg)
    mod 2 ^ Z.of_nat (length target_reg).
Proof.
  set (s' := run (rev cmds) s).
  destruct (same_size_commands_add _ _ Hlen Hwf s') as [Hframe Hval].
  fold cmds in Hframe, Hval.
  assert (Hback : same (run cmds s') s).
  { intros q. unfold s'. rewrite <- run_app. apply reverse_then_run. }
  assert (Hf : forall q, ~ In q target_reg -> s' q = s q).
  { intros q Hq. now rewrite <- (Hframe q Hq), Hback. }
  split; [exact Hf |].
  rewrite (value_ext _ s target_reg) in Hval by (intros; apply Hback).
  rewrite (value_ext s' s input_reg) in Hval.
  2:{ intros q Hq. apply Hf. now apply (well_formed_disjoint input_reg). }
  pose proof (value_range s' target_reg) as Hr.
  rewrite Hval, Zminus_mod_idemp_l.
  replace (value s input_reg + value s' target_reg - value s input_reg)
    with (value s' target_reg) by lia.
  symmetry. now apply Z.mod_small.
Qed.

End Subtraction.

(** ** The scenarios of the specification *)

Section Scenarios.

Let blank : state := fun _ => false.

(** [n = 3], input 5, target 2: the sum is 7 and the input stays 5. *)
Example scenario_add_5_2 :
  let s := store [0; 1; 2]%nat 5 (store [3; 4; 5]%nat 2 blank) in
  let s' := run (same_size_commands [0; 1; 2]%nat [3; 4; 5]%nat) s in
  (value s' [0; 1; 2]%nat, value s' [3; 4; 5]%nat) = (5, 7).
Proof. reflexivity. Qed.

(** The derived subtraction on (5, 7) gives back 2. *)
Example scenario_subtract_5_7 :
  let s := store [0; 1; 2]%nat 5 (store [3; 4; 5]%nat 7 blank) in
  let s' := run (rev (same_size_commands [0; 1; 2]%nat [3; 4; 5]%nat)) s in
  (value s' [0; 1; 2]%nat, value s' [3; 4; 5]%nat) = (5, 2).
Proof. reflexivity. Qed.

(** The truncation scenario, on the sequence the equal-size adder emits for
    the low four input qubits: input 214 on eight qubits, target 3 on four
    qubits, result 9. *)
Example scenario_truncated_214_3 :
  let input_reg := [0; 1; 2; 3; 4; 5; 6; 7]%nat in
  let target_reg := [8; 9; 10; 11]%nat in
  let s := store input_reg 214 (store target_reg 3 blank) in
  let s' := run (same_size_commands (firstn 4 input_reg) target_reg) s in
  (value s' input_reg, value s' target_reg) = (214, 9).
Proof. reflexivity. Qed.

(** The same call through [do_addition_no_controls] sends nothing. *)
Example scenario_truncated_in_the_code :
  do_addition_no_controls 1000 [0; 1; 2; 3; 4; 5; 6; 7]%nat
    [8; 9; 10; 11]%nat [] = ([], inl RecursionError).
Proof. reflexivity. Qed.

End Scenarios.

(** ** The double-add-invert trick *)

(** The loop of [do_addition] is meant to turn an uncontrolled addition
    into a controlled one.  The section shows that it does so for every
    pass that adds [addend] into [expanded]; the pass the code calls,
    [do_addition_no_controls], sends nothing (see above), so none of this is
    reached when the code runs. *)
Section DoubleAddInvert.

Variables (addend expanded : qureg) (ctrls : list qubit).
Variable pass : list command.

Hypothesis addend_apart : forall q, In q addend -> ~ In q expanded.
Hypothesis ctrls_apart : forall q, In q expanded -> ~ In q ctrls.
Hypothesis expanded_distinct : NoDup expanded.
Hypothesis pass_adds : forall s,
  (forall q, ~ In q expanded -> run pass s q = s q) /\
  value (run pass s) expanded =
  (value s addend + value s expanded) mod 2 ^ Z.of_nat (length expanded).

Let invert := [Cmd ctrls (All_X expanded); Cmd [] (All_X expanded)].

(** The controlled inversion followed by the plain inversion inverts
    [expanded] exactly when some control is 0. *)
Lemma run_invert s q :
  run invert s q =
  if enabled ctrls s then s q else xorb (s q) (hits q expanded).
Proof.
  unfold invert. cbn [run fold_left].
  rewrite apply_All_X by (intros x _ []).
  rewrite apply_All_X by exact ctrls_apart.
  cbn [enabled forallb].
  destruct (enabled ctrls s); [| reflexivity].
  now destruct (s q), (hits q expanded).
Qed.

Lemma run_invert_outside s q : ~ In q expanded -> run invert s q = s q.
Proof.
  intros Hq. rewrite run_invert, (hits_absent _ _ Hq), xorb_false_r.
  now destruct (enabled ctrls s).
Qed.

Lemma back_and_forth M I E :
  0 < M -> 0 <= E < M ->
  (I + (M - 1 - (I + E) mod M)) mod M = M - 1 - E.
Proof.
  intros HM HE.
  pose proof (Z.div_mod (I + E) M ltac:(lia)) as Hdm.
  symmetry. apply Z.mod_unique with (q := (I + E) / M); lia.
Qed.

(** One pass and the two inversions. *)
Lemma run_body s :
  let s' := run (pass ++ invert) s in
  (forall q, ~ In q expanded -> s' q = s q)
  /\ enabled ctrls s' = enabled ctrls s
  /\ value s' expanded =
     if enabled ctrls s
     then (value s addend + value s expanded)
            mod 2 ^ Z.of_nat (length expanded)
     else 2 ^ Z.of_nat (length expanded) - 1
          - (value s addend + value s expanded)
              mod 2 ^ Z.of_nat (length expanded).
Proof.
  intros s'. unfold s'. rewrite run_app.
  destruct (pass_adds s) as [Hframe Hval].
  set (s1 := run pass s) in *.
  assert (Hout : forall q, ~ In q expanded -> run invert s1 q = s q).
  { intros q Hq. now rewrite run_invert_outside, Hframe. }
  assert (Hen : enabled ctrls s1 = enabled ctrls s).
  { apply enabled_agree. intros c Hc. apply Hframe.
    intros Hin. exact (ctrls_apart c Hin Hc). }
  split; [exact Hout |]. split.
  - rewrite <- Hen. apply enabled_agree. intros c Hc.
    rewrite run_invert_outside; [reflexivity |].
    intros Hin. exact (ctrls_apart c Hin Hc).
  - rewrite <- Hen. destruct (enabled ctrls s1) eqn:E1.
    + rewrite <- Hval. apply value_ext. intros q _.
      now rewrite run_invert, E1.
    + rewrite <- Hval. apply value_inverted. intros q Hq.
      rewrite run_invert, E1, (hits_present _ _ expanded_distinct Hq).
      now destruct (s1 q).
Qed.

(** Net effect of the two passes: with all controls at 1 the addend has
    been added twice into [expanded]; with some control at 0 every qubit is
    as it was. *)
Lemma double_add_invert_effect s :
  let s' := run (double_add_invert pass ctrls expanded) s in
  (forall q, ~ In q expanded -> s' q = s q)
  /\ (enabled ctrls s = true ->
      value s' expanded =
      (2 * value s addend + value s expanded)
        mod 2 ^ Z.of_nat (length expanded))
  /\ (enabled ctrls s = false -> forall q, s' q = s q).
Proof.
  intros s'. unfold s', double_add_invert. cbn [range seq flat_map].
  rewrite app_nil_r. fold invert. rewrite run_app.
  destruct (run_body s) as (Hf1 & He1 & Hv1).
  set (s1 := run (pass ++ invert) s) in *.
  destruct (run_body s1) as (Hf2 & He2 & Hv2).
  set (s2 := run (pass ++ invert) s1) in *.
  assert (Hadd : value s1 addend = value s addend).
  { apply value_ext. intros q Hq. apply Hf1. now apply addend_apart. }
  assert (HM : 0 < 2 ^ Z.of_nat (length expanded))
    by (apply Z.pow_pos_nonneg; lia).
  assert (Hout : forall q, ~ In q expanded -> s2 q = s q).
  { intros q Hq. now rewrite Hf2, Hf1. }
  rewrite He1, Hadd in Hv2.
  split; [exact Hout |]. split.
  - intros En. rewrite En in *. rewrite Hv2, Hv1, Zplus_mod_idemp_r.
    f_equal. lia.
  - intros En q. rewrite En in *.
    destruct (in_dec Nat.eq_dec q expanded) as [Hq | Hq]; [| now apply Hout].
    apply (value_inj s2 s expanded); [| exact Hq].
    rewrite Hv2, Hv1.
    rewrite (back_and_forth _ _ (value s expanded) HM (value_range s expanded)).
    lia.
Qed.

End DoubleAddInvert.

(** ** The controlled addition the loop is written for *)

Section IntendedControlledAddition.

(** The loop body of [do_addition] around a callee that sends [pass] sends
    [double_add_invert pass]. *)
Lemma loop_emits (callee : M unit) (pass : list command)
    (ctrls : list qubit) (expanded : qureg) :
  (forall e, callee e = (e ++ pass, inr tt)) ->
  forall e,
    for_each (range 2) (fun _ =>
      callee ;;
      emit (Cmd ctrls (All_X expanded)) ;;
      emit (Cmd [] (All_X expanded))) e =
    (e ++ double_add_invert pass ctrls expanded, inr tt).
Proof.
  intros Hcallee e. unfold double_add_invert.
  apply for_each_emits. intros _ e0 _.
  rewrite (bind_ok _ _ _ _ tt (Hcallee e0)).
  unfold emit, bind. now rewrite <- !app_assoc.
Qed.

Lemma well_formed_firstn k input_reg target_reg :
  well_formed input_reg target_reg ->
  well_formed (firstn k input_reg) target_reg.
Proof.
  unfold well_formed. revert k.
  induction input_reg as [| x l IH]; intros [| k] Hnd; cbn [firstn app] in *;
    try exact Hnd.
  - apply NoDup_cons_iff in Hnd as [_ Hnd]. exact (IH 0%nat Hnd).
  - apply NoDup_cons_iff in Hnd as [Hx Hnd].
    apply NoDup_cons; [| now apply IH].
    rewrite in_app_iff in *. intros [Hin | Hin]; apply Hx; [left | now right].
    rewrite <- (firstn_skipn k l), in_app_iff. now left.
Qed.

Variables (input_reg target_reg : qureg) (dirty : qubit) (ctrls : list qubit).

Let expanded := [dirty] ++ target_reg.
Let pass := same_size_commands (firstn (length expanded) input_reg) expanded.

Hypothesis input_long_enough : (length expanded <= length input_reg)%nat.
Hypothesis registers_distinct : well_formed input_reg expanded.
Hypothesis ctrls_apart : forall q, In q expanded -> ~ In q ctrls.

(** Had each pass added the low qubits of [input_reg] into [expanded], the
    loop would be the controlled addition: with all controls at 1 the target
    receives the sum modulo [2^n] and the dirty qubit keeps its value, with
    some control at 0 nothing changes. *)
Lemma double_pass_is_controlled_addition s :
  let s' := run (double_add_invert pass ctrls expanded) s in
  (enabled ctrls s = true ->
   s' dirty = s dirty
   /\ value s' target_reg =
      (value s target_reg + value s input_reg)
        mod 2 ^ Z.of_nat (length target_reg)
   /\ forall q, ~ In q expanded -> s' q = s q)
  /\ (enabled ctrls s = false -> forall q, s' q = s q).
Proof.
  intros s'.
  assert (Hwf : well_formed (firstn (length expanded) input_reg) expanded)
    by now apply well_formed_firstn.
  assert (Hlen : length (firstn (length expanded) input_reg) = length expanded)
    by (rewrite length_firstn; lia).
  destruct (double_add_invert_effect
              (firstn (length expanded) input_reg) expanded ctrls pass
              (fun q => well_formed_disjoint _ _ q Hwf)
              ctrls_apart
              (NoDup_app_remove_l _ _ registers_distinct)
              (same_size_commands_add _ _ Hlen Hwf) s)
    as (Hout & Hon & Hoff).
  fold s' in Hout, Hon, Hoff.
  split; [| exact Hoff].
  intros En. specialize (Hon En).
  assert (HP : 0 < 2 ^ Z.of_nat (length target_reg))
    by (apply Z.pow_pos_nonneg; lia).
  assert (Hlow : value s input_reg =
            value s (firstn (length expanded) input_reg)
            + 2 ^ Z.of_nat (length target_reg)
              * (2 * value s (skipn (length expanded) input_reg))).
  { rewrite <- (firstn_skipn (length expanded) input_reg) at 1.
    rewrite value_app, Hlen. unfold expanded. cbn [app length].
    rewrite Nat2Z.inj_succ, Z.pow_succ_r by lia. lia. }
  set (low := value s (firstn (length expanded) input_reg)) in *.
  unfold expanded in Hon. cbn [app value length] in Hon.
  rewrite Nat2Z.inj_succ, Z.pow_succ_r in Hon by lia.
  rewrite <- (double_mod (Z.b2z (s dirty)) (low + value s target_reg)) in Hon;
    [| exact HP | destruct (s dirty); cbn; lia | lia].
  pose proof (Z.mod_pos_bound (low + value s target_reg)
                (2 ^ Z.of_nat (length target_reg)) HP) as Hb.
  assert (Hd : s' dirty = s dirty)
    by (destruct (s' dirty), (s dirty); cbn [Z.b2z] in Hon;
        (reflexivity || lia)).
  split; [exact Hd |]. split; [| exact Hout].
  rewrite Hd in Hon. rewrite Hlow.
  rewrite Z.add_assoc, Z.mul_comm, Z_mod_plus_full.
  rewrite (Z.add_comm (value s target_reg)). lia.
Qed.

End IntendedControlledAddition.

(** * Main results *)

(** C1.  Arithmetic correctness of the uncontrolled equal-length adder: for
    every [n >= 0], all integers [a] and [b] in [[0, 2^n)] and registers of
    [n] distinct qubits each that hold [a] and [b], the adder runs to
    completion, and executing the commands it emitted leaves [a] in the input
    register and [(a + b) mod 2^n] in the target register. *)
Theorem addition_is_modular_sum (n : nat) (input_reg target_reg : qureg)
    (a b : Z) (s : state) :
  length input_reg = n -> length target_reg = n ->
  well_formed input_reg target_reg ->
  0 <= a < 2 ^ Z.of_nat n -> 0 <= b < 2 ^ Z.of_nat n ->
  value s input_reg = a -> value s target_reg = b ->
  exists cmds,
    do_addition_with_same_size_and_no_controls input_reg target_reg [] =
      (cmds, inr tt)
    /\ value (run cmds s) input_reg = a
    /\ value (run cmds s) target_reg = (a + b) mod 2 ^ Z.of_nat n.
Proof.
  intros Hi Ht Hwf _ _ Ha Hb.
  exists (same_size_commands input_reg target_reg).
  assert (Hlen : length input_reg = length target_reg) by congruence.
  destruct (same_size_commands_add _ _ Hlen Hwf s) as [Hframe Hval].
  split; [| split].
  - now rewrite do_addition_with_same_size_emits.
  - rewrite <- Ha. apply value_ext. intros q Hq. apply Hframe.
    now apply (well_formed_disjoint input_reg).
  - rewrite Hval, Ha, Hb, Ht. reflexivity.
Qed.

Lemma addition_is_modular_sum_witness :
  exists cmds,
    do_addition_with_same_size_and_no_controls [0; 1; 2]%nat [3; 4; 5]%nat []
      = (cmds, inr tt)
    /\ value (run cmds (store [0; 1; 2]%nat 5
                          (store [3; 4; 5]%nat 2 (fun _ => false))))
             [0; 1; 2]%nat = 5
    /\ value (run cmds (store [0; 1; 2]%nat 5
                          (store [3; 4; 5]%nat 2 (fun _ => false))))
             [3; 4; 5]%nat = (5 + 2) mod 2 ^ Z.of_nat 3.
Proof.
  apply (addition_is_modular_sum 3 [0; 1; 2]%nat [3; 4; 5]%nat 5 2).
  - reflexivity.
  - reflexivity.
  - unfold well_formed. repeat (constructor; [cbn; lia |]). constructor.
  - cbn. lia.
  - cbn. lia.
  - reflexivity.
  - reflexivity.
Defined.

(** C3.  Dirty-bit restoration: for registers of [n >= 1] distinct qubits and
    every initial state, garbage in the borrowed carry qubit [input_reg[-1]]
    included, the carry qubit has its initial value after the five phases,
    and so has every qubit of the input register. *)
Theorem carry_bit_is_restored (input_reg target_reg : qureg) (s : state) :
  (1 <= length target_reg)%nat ->
  length input_reg = length target_reg ->
  well_formed input_reg target_reg ->
  exists cmds carry_bit,
    do_addition_with_same_size_and_no_controls input_reg target_reg [] =
      (cmds, inr tt)
    /\ getitem input_reg (-1) [] = ([], inr carry_bit)
    /\ run cmds s carry_bit = s carry_bit
    /\ forall q, In q input_reg -> run cmds s q = s q.
Proof.
  intros Hn Hlen Hwf.
  exists (same_size_commands input_reg target_reg), (last input_reg O).
  assert (Hne : input_reg <> []) by (intros ->; cbn in Hlen; lia).
  destruct (same_size_commands_add _ _ Hlen Hwf s) as [Hframe _].
  assert (Hin : forall q, In q input_reg ->
            run (same_size_commands input_reg target_reg) s q = s q).
  { intros q Hq. apply Hframe. now apply (well_formed_disjoint input_reg). }
  split; [| split; [| split]].
  - now rewrite do_addition_with_same_size_emits.
  - now apply getitem_last.
  - apply Hin. destruct (exists_last Hne) as [lo [c ->]].
    rewrite last_last, in_app_iff. right. now left.
  - exact Hin.
Qed.

Lemma carry_bit_is_restored_witness :
  exists cmds carry_bit,
    do_addition_with_same_size_and_no_controls [0; 1; 2]%nat [3; 4; 5]%nat []
      = (cmds, inr tt)
    /\ getitem [0; 1; 2]%nat (-1) [] = ([], inr carry_bit)
    /\ run cmds (fun _ => true) carry_bit = true
    /\ forall q, In q [0; 1; 2]%nat -> run cmds (fun _ => true) q = true.
Proof.
  apply (carry_bit_is_restored [0; 1; 2]%nat [3; 4; 5]%nat (fun _ => true)).
  - cbn. lia.
  - reflexivity.
  - unfold well_formed. repeat (constructor; [cbn; lia |]). constructor.
Defined.

(** C2.  Exact inverse law: for two equal-length registers of distinct
    qubits, the addition sequence followed by its scoped inversion (the same
    commands in reverse order, each primitive being its own inverse) returns
    every qubit, the borrowed carry qubit with whatever it held included, to
    its original value. *)
Theorem addition_then_inverse_is_identity (input_reg target_reg : qureg) :
  length input_reg = length target_reg ->
  well_formed input_reg target_reg ->
  exists cmds,
    (do_addition_with_same_size_and_no_controls input_reg target_reg ;;
     Dagger (do_addition_with_same_size_and_no_controls input_reg target_reg))
      [] = (cmds, inr tt)
    /\ forall (s : state) (q : qubit), run cmds s q = s q.
Proof.
  intros Hlen Hwf.
  exists (same_size_commands input_reg target_reg
          ++ rev (same_size_commands input_reg target_reg)).
  split.
  - erewrite bind_ok by (now apply do_addition_with_same_size_emits).
    cbn [app]. apply Dagger_emits.
    now rewrite do_addition_with_same_size_emits.
  - intros s. apply run_then_reverse.
    now apply same_size_commands_involutive.
Qed.

Lemma addition_then_inverse_is_identity_witness :
  exists cmds,
    (do_addition_with_same_size_and_no_controls [0; 1; 2]%nat [3; 4; 5]%nat ;;
     Dagger (do_addition_with_same_size_and_no_controls
               [0; 1; 2]%nat [3; 4; 5]%nat))
      [] = (cmds, inr tt)
    /\ forall (s : state) (q : qubit), run cmds s q = s q.
Proof.
  apply (addition_then_inverse_is_identity [0; 1; 2]%nat [3; 4; 5]%nat).
  - reflexivity.
  - unfold well_formed. repeat (constructor; [cbn; lia |]). constructor.
Defined.

Section DirtyCorrections.

Variables (lo tlo : qureg) (c th : qubit).

Hypothesis lengths_agree : length lo = length tlo.
Hypothesis registers_distinct : well_formed (lo ++ [c]) (tlo ++ [th]).

(** A multi-target controlled-NOT from the carry qubit onto distinct
    qubits that do not include it inverts them when the carry qubit is 1. *)
Lemma apply_correction (ts : qureg) s q :
  NoDup ts -> ~ In c ts ->
  apply (Cmd [c] (All_X ts)) s q =
  if s c then (if in_dec Nat.eq_dec q ts then negb (s q) else s q) else s q.
Proof.
  intros Hnd Hc. rewrite apply_All_X by (intros x Hx [<- | []]; exact (Hc Hx)).
  unfold enabled. cbn [forallb]. rewrite andb_true_r.
  destruct (s c); [| reflexivity].
  destruct (in_dec Nat.eq_dec q ts) as [Hq | Hq].
  - rewrite (hits_present _ _ Hnd Hq). now destruct (s q).
  - rewrite (hits_absent _ _ Hq). now destruct (s q).
Qed.

(** When phase 5 starts the carry qubit already holds its original
    value. *)
Lemma carry_original_before_phase5 s :
  run ([Cmd [c] (All_X (rev (lo ++ tlo ++ [th])))]
       ++ ripple c (combine lo tlo) [cnot c th]) s c = s c.
Proof.
  destruct (well_formed_split _ _ _ _ registers_distinct) as (Hnd & Hts & Hc).
  rewrite run_app.
  pose proof (ripple_adds c th (combine lo tlo)) as Hrip.
  rewrite (map_fst_combine _ _ lengths_agree),
    (map_snd_combine _ _ lengths_agree) in Hrip.
  destruct (Hrip Hnd (run [Cmd [c] (All_X (rev (lo ++ tlo ++ [th])))] s))
    as [Hframe _].
  rewrite Hframe.
  - cbn [run fold_left].
    rewrite apply_correction;
      [| now apply NoDup_rev | now rewrite <- in_rev].
    destruct (in_dec Nat.eq_dec c (rev (lo ++ tlo ++ [th]))) as [Hin | _].
    + apply in_rev in Hin. contradiction.
    + now destruct (s c).
  - intros Hin. apply Hc. rewrite in_app_iff. now right.
Qed.

End DirtyCorrections.

(** C8, as the code has it.  Phases 1 and 5 are the first and the last
    command of the emitted sequence.  Both are the multi-target
    controlled-NOT whose single control is the carry qubit and whose targets
    are the remaining input qubits and all target qubits, phase 1 listing
    them in reverse order; both invert exactly those qubits when the carry
    qubit is 1, so they are the same operation.  Phase 5 does not write the
    carry qubit: the carry qubit holds its original value already when
    phase 5 starts, phase 5 leaves it so, and it holds it at the end. *)
Theorem phase5_repeats_phase1_and_keeps_carry (input_reg target_reg : qureg) :
  (1 <= length target_reg)%nat ->
  length input_reg = length target_reg ->
  well_formed input_reg target_reg ->
  exists carry_bit middle,
    let targets := removelast input_reg ++ target_reg in
    let phase1 := Cmd [carry_bit] (All_X (rev targets)) in
    let phase5 := Cmd [carry_bit] (All_X targets) in
    getitem input_reg (-1) [] = ([], inr carry_bit)
    /\ do_addition_with_same_size_and_no_controls input_reg target_reg [] =
         ([phase1] ++ middle ++ [phase5], inr tt)
    /\ (forall q, In q targets <->
                  (In q input_reg /\ q <> carry_bit) \/ In q target_reg)
    /\ (forall q, In q (rev targets) <-> In q targets)
    /\ (forall (s : state) (q : qubit),
          apply phase5 s q =
          if s carry_bit
          then (if in_dec Nat.eq_dec q targets then negb (s q) else s q)
          else s q)
    /\ (forall (s : state) (q : qubit), apply phase1 s q = apply phase5 s q)
    /\ (forall s : state, run ([phase1] ++ middle) s carry_bit = s carry_bit)
    /\ (forall s : state, apply phase5 s carry_bit = s carry_bit)
    /\ (forall s : state,
          run ([phase1] ++ middle ++ [phase5]) s carry_bit = s carry_bit).
Proof.
  intros Hn Hlen Hwf.
  assert (Hii : input_reg <> []) by (intros ->; cbn in Hlen; lia).
  pose proof (do_addition_with_same_size_emits input_reg target_reg [] Hlen)
    as Hemit.
  pose proof (getitem_last input_reg O [] Hii) as Hcarry.
  assert (Hsplit : exists lo c tlo th,
            input_reg = lo ++ [c] /\ target_reg = tlo ++ [th]
            /\ length lo = length tlo
            /\ same_size_commands input_reg target_reg
               = five_phases lo c tlo th).
  { assert (Hti : target_reg <> []) by (intros ->; cbn in Hn; lia).
    destruct (exists_last Hii) as [lo [c Hi]].
    destruct (exists_last Hti) as [tlo [th Ht]].
    exists lo, c, tlo, th. subst input_reg target_reg.
    rewrite !length_app in Hlen. cbn [length] in Hlen.
    repeat split; [lia |].
    unfold same_size_commands.
    destruct (tlo ++ [th]) eqn:E; [now destruct tlo |].
    rewrite <- E, !removelast_last, !last_last. reflexivity. }
  destruct Hsplit as (lo & c & tlo & th & -> & -> & Hlo & Hfive).
  rewrite Hfive, five_phases_nested in Hemit. cbn [app] in Hemit.
  rewrite last_last in Hcarry. rewrite removelast_last.
  destruct (well_formed_split _ _ _ _ Hwf) as (_ & Hts & Hc).
  exists c, (ripple c (combine lo tlo) [cnot c th]).
  cbv zeta.
  assert (Hp5 : forall (s : state) (q : qubit),
            apply (Cmd [c] (All_X (lo ++ tlo ++ [th]))) s q =
            if s c
            then (if in_dec Nat.eq_dec q (lo ++ tlo ++ [th])
                  then negb (s q) else s q)
            else s q)
    by (intros s q; now apply apply_correction).
  assert (Hbefore : forall s : state,
            run ([Cmd [c] (All_X (rev (lo ++ tlo ++ [th])))]
                 ++ ripple c (combine lo tlo) [cnot c th]) s c = s c)
    by (intros s; now apply carry_original_before_phase5).
  assert (Hkeep : forall s : state,
            apply (Cmd [c] (All_X (lo ++ tlo ++ [th]))) s c = s c).
  { intros s. rewrite Hp5.
    destruct (in_dec Nat.eq_dec c (lo ++ tlo ++ [th])); [contradiction |].
    now destruct (s c). }
  split; [exact Hcarry |].
  split; [exact Hemit |].
  split.
  { intros q. rewrite !in_app_iff. cbn [In]. split.
    - intros [Hq | Hq]; [left | right; tauto].
      split; [tauto |]. intros ->. apply Hc. rewrite in_app_iff. now left.
    - intros [[[Hq | [Hq | []]] Hne] | Hq]; [now left | congruence | now right]. }
  split; [intros q; symmetry; apply in_rev |].
  split; [exact Hp5 |].
  split.
  { intros s q. rewrite Hp5, apply_correction;
      [| now apply NoDup_rev | now rewrite <- in_rev].
    destruct (s c); [| reflexivity].
    destruct (in_dec Nat.eq_dec q (rev (lo ++ tlo ++ [th]))) as [H1 | H1],
             (in_dec Nat.eq_dec q (lo ++ tlo ++ [th])) as [H2 | H2];
      try reflexivity; exfalso.
    - apply H2. rewrite in_rev. exact H1.
    - apply H1. rewrite <- in_rev. exact H2. }
  split; [exact Hbefore |].
  split; [exact Hkeep |].
  intros s. rewrite app_assoc, run_app. cbn [run fold_left].
  now rewrite Hkeep, Hbefore.
Qed.

Lemma phase5_repeats_phase1_and_keeps_carry_witness :
  exists carry_bit middle,
    let targets := removelast [0; 1; 2]%nat ++ [3; 4; 5]%nat in
    let phase1 := Cmd [carry_bit] (All_X (rev targets)) in
    let phase5 := Cmd [carry_bit] (All_X targets) in
    getitem [0; 1; 2]%nat (-1) [] = ([], inr carry_bit)
    /\ do_addition_with_same_size_and_no_controls
         [0; 1; 2]%nat [3; 4; 5]%nat [] =
         ([phase1] ++ middle ++ [phase5], inr tt)
    /\ (forall q, In q targets <->
                  (In q [0; 1; 2]%nat /\ q <> carry_bit)
                  \/ In q [3; 4; 5]%nat)
    /\ (forall q, In q (rev targets) <-> In q targets)
    /\ (forall (s : state) (q : qubit),
          apply phase5 s q =
          if s carry_bit
          then (if in_dec Nat.eq_dec q targets then negb (s q) else s q)
          else s q)
    /\ (forall (s : state) (q : qubit), apply phase1 s q = apply phase5 s q)
    /\ (forall s : state, run ([phase1] ++ middle) s carry_bit = s carry_bit)
    /\ (forall s : state, apply phase5 s carry_bit = s carry_bit)
    /\ (forall s : state,
          run ([phase1] ++ middle ++ [phase5]) s carry_bit = s carry_bit).
Proof.
  apply (phase5_repeats_phase1_and_keeps_carry [0; 1; 2]%nat [3; 4; 5]%nat).
  - cbn. lia.
  - reflexivity.
  - unfold well_formed. repeat (constructor; [cbn; lia |]). constructor.
Defined.

(** C8, as the specification words it, fails: phase 5 is said to restore
    the carry qubit.  On three-qubit registers, with every qubit at 1, the
    carry qubit [2] holds 0 after phase 3 and is back at 1 after phase 4;
    in no state does it differ from its original value when phase 5
    starts, and phase 5, whose targets do not include it, leaves it as it
    finds it. *)
Lemma phase5_has_no_carry_to_restore :
  let cmds := fst (do_addition_with_same_size_and_no_controls
                     [0; 1; 2]%nat [3; 4; 5]%nat []) in
  let phases_1_to_3 := firstn 6 cmds in
  let phases_1_to_4 := firstn 10 cmds in
  let phase5 := nth 10 cmds (Cmd [] (All_X [])) in
  let ones : state := fun _ => true in
  cmds = phases_1_to_4 ++ [phase5]
  /\ phase5 = Cmd [2]%nat (All_X [0; 1; 3; 4; 5]%nat)
  /\ run phases_1_to_3 ones 2%nat = false
  /\ run phases_1_to_4 ones 2%nat = ones 2%nat
  /\ apply phase5 (run phases_1_to_4 ones) 2%nat
     = run phases_1_to_4 ones 2%nat
  /\ ~ (exists s : state, run phases_1_to_4 s 2%nat <> s 2%nat).
Proof.
  cbv zeta.
  repeat (split; [reflexivity |]).
  intros [s Hs]. apply Hs.
  assert (Hwf : well_formed ([0; 1] ++ [2])%nat ([3; 4] ++ [5])%nat).
  { unfold well_formed. repeat (constructor; [cbn; lia |]). constructor. }
  exact (carry_original_before_phase5 [0; 1]%nat [3; 4]%nat 2%nat 5%nat
           eq_refl Hwf s).
Qed.

(** C6.  A call of [do_addition_no_controls] with an input register shorter
    than the target register raises [NotImplementedError] and the engine
    receives no command. *)
Theorem shorter_input_is_not_implemented (depth : nat)
    (input_reg target_reg : qureg) (e : engine) :
  (length input_reg < length target_reg)%nat ->
  do_addition_no_controls (S depth) input_reg target_reg e =
  (e, inl NotImplementedError).
Proof. apply do_addition_no_controls_shorter. Qed.

Lemma shorter_input_is_not_implemented_witness :
  do_addition_no_controls 1000 [0; 1]%nat [2; 3; 4]%nat [] =
  ([], inl NotImplementedError).
Proof.
  apply (shorter_input_is_not_implemented 999 [0; 1]%nat [2; 3; 4]%nat []).
  cbn. lia.
Defined.

(** C7.  All-or-nothing emission: whenever [do_addition] or
    [do_addition_no_controls] ends with an exception, the engine has
    received no command from the call: it is as it was before the call, and
    empty if it was empty. *)
Theorem failure_emits_nothing (depth : nat) (input_reg target_reg : qureg)
    (dirty : qubit) (ctrls : list qubit) (e : engine) :
  (forall x,
     snd (do_addition depth input_reg target_reg dirty ctrls e) = inl x ->
     fst (do_addition depth input_reg target_reg dirty ctrls e) = e)
  /\ (forall x,
        snd (do_addition_no_controls depth input_reg target_reg e) = inl x ->
        fst (do_addition_no_controls depth input_reg target_reg e) = e).
Proof.
  split; intros x _.
  - destruct (do_addition_raises depth input_reg target_reg dirty ctrls e)
      as [y ->]. reflexivity.
  - destruct (do_addition_no_controls_raises depth input_reg target_reg e)
      as [y ->]. reflexivity.
Qed.

Lemma failure_emits_nothing_witness :
  fst (do_addition 1000 [0; 1]%nat [2; 3]%nat 4%nat [5]%nat []) = []
  /\ fst (do_addition_no_controls 1000 [0; 1]%nat [2; 3; 4]%nat []) = [].
Proof.
  split.
  - apply (proj1 (failure_emits_nothing 1000 [0; 1]%nat [2; 3]%nat 4%nat
                    [5]%nat []) NotImplementedError).
    reflexivity.
  - apply (proj2 (failure_emits_nothing 1000 [0; 1]%nat [2; 3; 4]%nat 4%nat
                    [5]%nat []) NotImplementedError).
    reflexivity.
Defined.

(** C5.  [do_addition_no_controls] with an input register at least as long
    as the target register is specified to terminate, truncate the input and
    hand over to the equal-size adder.  In the code the call goes to
    [do_addition_no_controls] itself, so whatever the number of frames the
    call ends in [RecursionError] and the engine receives no command. *)
Theorem longer_input_never_reaches_the_adder (depth : nat)
    (input_reg target_reg : qureg) (e : engine) :
  (length target_reg <= length input_reg)%nat ->
  do_addition_no_controls depth input_reg target_reg e =
  (e, inl RecursionError).
Proof. apply do_addition_no_controls_recurses. Qed.

Lemma longer_input_never_reaches_the_adder_witness :
  do_addition_no_controls 1000 [0; 1; 2; 3; 4; 5; 6; 7]%nat
    [8; 9; 10; 11]%nat [] = ([], inl RecursionError).
Proof.
  apply (longer_input_never_reaches_the_adder 1000
           [0; 1; 2; 3; 4; 5; 6; 7]%nat [8; 9; 10; 11]%nat []).
  cbn. lia.
Defined.

(** C4.  Control gating is specified for the sequence [do_addition] emits:
    the sum in the target when all controls are 1, nothing changed
    otherwise.  In the code every path of [do_addition] goes through
    [do_addition_no_controls] before the first command, and that call never
    returns: for every number of controls, all registers and any number of
    frames, [do_addition] ends with an exception and the engine has received
    nothing; the exception is [RecursionError] whenever the input register is
    long enough for the (extended) target. *)
Theorem do_addition_emits_no_sequence (depth : nat)
    (input_reg target_reg : qureg) (dirty : qubit) (ctrls : list qubit)
    (e : engine) :
  exists x,
    do_addition depth input_reg target_reg dirty ctrls e = (e, inl x)
    /\ ((length target_reg + (if (length ctrls =? 0)%nat then 0 else 1)
         <= length input_reg)%nat -> x = RecursionError).
Proof.
  unfold do_addition.
  destruct (length ctrls =? 0)%nat.
  - destruct (Nat.le_gt_cases (length target_reg) (length input_reg))
      as [H | H].
    + exists RecursionError.
      now rewrite do_addition_no_controls_recurses.
    + destruct (do_addition_no_controls_raises depth input_reg target_reg e)
        as [x Hx].
      exists x. split; [exact Hx | lia].
  - cbn [range seq for_each].
    destruct (Nat.le_gt_cases (length ([dirty] ++ target_reg))
                (length input_reg)) as [H | H].
    + exists RecursionError. split; [| reflexivity].
      apply bind_raise, bind_raise.
      now apply do_addition_no_controls_recurses.
    + destruct (do_addition_no_controls_raises depth input_reg
                  ([dirty] ++ target_reg) e) as [x Hx].
      exists x. split; [now apply bind_raise, bind_raise |].
      cbn [app length] in H. lia.
Qed.

Lemma do_addition_emits_no_sequence_witness :
  do_addition 1000 [0; 1]%nat [2]%nat 3%nat [4]%nat [] =
  ([], inl RecursionError).
Proof.
  destruct (do_addition_emits_no_sequence 1000 [0; 1]%nat [2]%nat 3%nat
              [4]%nat []) as [x [Hx Hrec]].
  rewrite Hx. f_equal. f_equal. apply Hrec. cbn. lia.
Defined.

(** C9.  Gate count with controls: with [k >= 1] controls the emitted
    sequence is specified to hold two passes of the adder and two more
    commands per pass.  In the code, with at least one control and an input
    register long enough for the extended target, the first pass already
    ends in [RecursionError] and the engine has received no command at
    all.  (The count of the equal-size adder itself is
    [same_size_commands_count].) *)
Theorem controlled_addition_emits_zero_commands (depth : nat)
    (input_reg target_reg : qureg) (dirty : qubit) (ctrls : list qubit) :
  (1 <= length ctrls)%nat ->
  (S (length target_reg) <= length input_reg)%nat ->
  do_addition depth input_reg target_reg dirty ctrls [] =
    ([], inl RecursionError)
  /\ length (fst (do_addition depth input_reg target_reg dirty ctrls [])) = 0%nat.
Proof.
  intros Hk Hlen.
  assert (H : do_addition depth input_reg target_reg dirty ctrls [] =
              ([], inl RecursionError)).
  { unfold do_addition.
    destruct (Nat.eqb_spec (length ctrls) 0) as [H0 | _]; [lia |].
    cbn [range seq for_each].
    apply bind_raise, bind_raise.
    now apply do_addition_no_controls_recurses. }
  now rewrite H.
Qed.

Lemma controlled_addition_emits_zero_commands_witness :
  do_addition 1000 [0; 1; 2]%nat [3; 4]%nat 5%nat [6]%nat [] =
    ([], inl RecursionError)
  /\ length (fst (do_addition 1000 [0; 1; 2]%nat [3; 4]%nat 5%nat [6]%nat []))
     = 0%nat.
Proof.
  apply (controlled_addition_emits_zero_commands 1000 [0; 1; 2]%nat
           [3; 4]%nat 5%nat [6]%nat).
  - cbn. lia.
  - cbn. lia.
Defined.

(** C10.  The two gate tags: the inverse of an addition gate is a subtraction
    gate and the inverse of a subtraction gate is an addition gate, so
    [get_inverse] applied twice gives a gate of the original class; and
    [get_merged] raises [NotMergeable] on either gate, whatever the other
    argument. *)
Theorem gate_tags_invert_and_never_merge :
  Tags.get_inverse Tags.AdditionGate = Tags.SubtractionGate
  /\ Tags.get_inverse Tags.SubtractionGate = Tags.AdditionGate
  /\ (forall g, Tags.get_inverse (Tags.get_inverse g) = g)
  /\ (forall (A : Type) (g : Tags.basic_gate) (other : A),
        Tags.get_merged g other = inl (NotMergeable Tags.no_get_merged)).
Proof.
  repeat split.
  - now intros [].
  - now intros A [] other.
Qed.

(** * Further properties of the adder *)

Section AdderShape.

Lemma do_addition_with_same_size_asserts input_reg target_reg e :
  length input_reg <> length target_reg ->
  do_addition_with_same_size_and_no_controls input_reg target_reg e =
  (e, inl AssertionError).
Proof.
  intros H. unfold do_addition_with_same_size_and_no_controls.
  now apply Nat.eqb_neq in H as ->.
Qed.

(** Registers of equal, non-zero length split into their low qubits and
    their last qubit, and the adder sends the five phases. *)
Lemma same_size_commands_split input_reg target_reg :
  length input_reg = length target_reg ->
  (1 <= length target_reg)%nat ->
  exists lo c tlo th,
    input_reg = lo ++ [c] /\ target_reg = tlo ++ [th]
    /\ length lo = length tlo
    /\ same_size_commands input_reg target_reg = five_phases lo c tlo th.
Proof.
  intros Hlen Hn.
  assert (Hti : target_reg <> []) by (intros ->; cbn in Hn; lia).
  assert (Hii : input_reg <> []) by (intros ->; cbn in Hlen; lia).
  destruct (exists_last Hii) as [lo [c Hi]].
  destruct (exists_last Hti) as [tlo [th Ht]].
  exists lo, c, tlo, th. subst input_reg target_reg.
  rewrite !length_app in Hlen. cbn [length] in Hlen.
  repeat split; [lia |].
  unfold same_size_commands.
  destruct (tlo ++ [th]) eqn:E; [now destruct tlo |].
  rewrite <- E, !removelast_last, !last_last. reflexivity.
Qed.

Lemma filter_flat_map_length {A} (f : command -> bool)
    (g : A -> list command) (k : nat) (xs : list A) :
  (forall x, length (filter f (g x)) = k) ->
  length (filter f (flat_map g xs)) = (k * length xs)%nat.
Proof.
  intros Hg. induction xs as [| x xs IH]; cbn [flat_map length filter];
    [lia |].
  rewrite filter_app, length_app, Hg, IH. lia.
Qed.

Lemma Forall_flat_map_intro {A} (P : command -> Prop)
    (g : A -> list command) (xs : list A) :
  (forall x, In x xs -> Forall P (g x)) -> Forall P (flat_map g xs).
Proof.
  intros H. apply Forall_flat_map, Forall_forall. exact H.
Qed.

End AdderShape.

(** X1.  The equal-size adder either fails its assertion or runs to the
    end: with registers of different lengths it raises [AssertionError]
    before sending anything, with registers of equal length it returns
    normally, so none of its index accesses ([input_reg[-1]],
    [target_reg[i]], [input_reg[i]], [target_reg[-1]]) is ever out of
    range. *)
Theorem adder_asserts_or_completes (input_reg target_reg : qureg)
    (e : engine) :
  (length input_reg <> length target_reg ->
   do_addition_with_same_size_and_no_controls input_reg target_reg e =
   (e, inl AssertionError))
  /\ (length input_reg = length target_reg ->
      exists cmds,
        do_addition_with_same_size_and_no_controls input_reg target_reg e =
        (e ++ cmds, inr tt)).
Proof.
  split.
  - apply do_addition_with_same_size_asserts.
  - intros Hlen. eexists. now apply do_addition_with_same_size_emits.
Qed.

Lemma adder_asserts_or_completes_witness :
  do_addition_with_same_size_and_no_controls [0; 1]%nat [2; 3; 4]%nat [] =
    ([], inl AssertionError)
  /\ exists cmds,
       do_addition_with_same_size_and_no_controls [0; 1]%nat [2; 3]%nat [] =
       ([] ++ cmds, inr tt).
Proof.
  split.
  - apply (proj1 (adder_asserts_or_completes [0; 1]%nat [2; 3; 4]%nat [])).
    cbn. lia.
  - apply (proj2 (adder_asserts_or_completes [0; 1]%nat [2; 3]%nat [])).
    reflexivity.
Defined.

(** X2.  No ancilla: whatever the registers, every qubit named by a command
    the adder sends, as a control or as an operand, is a qubit of
    [input_reg] or of [target_reg]. *)
Theorem adder_names_only_its_registers (input_reg target_reg : qureg) :
  Forall (fun c => incl (command_qubits c) (input_reg ++ target_reg))
         (fst (do_addition_with_same_size_and_no_controls
                 input_reg target_reg [])).
Proof.
  destruct (Nat.eq_dec (length input_reg) (length target_reg)) as [Hlen | Hne].
  2:{ rewrite do_addition_with_same_size_asserts by exact Hne. constructor. }
  rewrite do_addition_with_same_size_emits by exact Hlen. cbn [fst app].
  destruct target_reg as [| t0 tr] eqn:Htgt; [constructor |].
  rewrite <- Htgt in *.
  destruct (same_size_commands_split input_reg target_reg Hlen)
    as (lo & c & tlo & th & -> & -> & Hlo & ->).
  { rewrite Htgt. cbn. lia. }
  clear Htgt t0 tr Hlen.
  assert (Hc : In c ((lo ++ [c]) ++ tlo ++ [th]))
    by (rewrite !in_app_iff; cbn; tauto).
  assert (Hth : In th ((lo ++ [c]) ++ tlo ++ [th]))
    by (rewrite !in_app_iff; cbn; tauto).
  assert (Hts : incl (lo ++ tlo ++ [th]) ((lo ++ [c]) ++ tlo ++ [th])).
  { intros q. rewrite !in_app_iff. tauto. }
  assert (Hpair : forall p, In p (combine lo tlo) ->
            In (fst p) ((lo ++ [c]) ++ tlo ++ [th])
            /\ In (snd p) ((lo ++ [c]) ++ tlo ++ [th])).
  { intros [a t] Hp. cbn [fst snd].
    pose proof (in_combine_l _ _ _ _ Hp).
    pose proof (in_combine_r _ _ _ _ Hp).
    rewrite !in_app_iff. tauto. }
  unfold five_phases, ripple_forward, ripple_backward.
  rewrite !Forall_app.
  split; [| split; [| split; [| split]]].
  - repeat constructor. unfold command_qubits. cbn [controls action cnots app].
    intros q [<- | Hq]; [exact Hc | apply Hts; now apply in_rev].
  - apply Forall_flat_map_intro. intros p Hp. destruct (Hpair p Hp).
    repeat constructor; unfold command_qubits; cbn;
      intros q Hq; cbn in Hq; intuition (subst; assumption).
  - repeat constructor. unfold command_qubits. cbn.
    intros q Hq; cbn in Hq; intuition (subst; assumption).
  - apply Forall_flat_map_intro. intros p Hp. apply in_rev in Hp.
    destruct (Hpair p Hp).
    repeat constructor; unfold command_qubits; cbn;
      intros q Hq; cbn in Hq; intuition (subst; assumption).
  - repeat constructor. unfold command_qubits. cbn [controls action cnots app].
    intros q [<- | Hq]; [exact Hc | now apply Hts].
Qed.

(** X3.  The gates of the adder: for registers of [n >= 1] qubits the
    sequence consists of exactly 2 multi-target controlled-NOTs, [2n - 1]
    controlled-NOTs and [2n - 2] controlled-SWAPs, [4n - 1] commands in all,
    each with a single control. *)
Theorem adder_gate_inventory (input_reg target_reg : qureg) :
  length input_reg = length target_reg ->
  (1 <= length target_reg)%nat ->
  let n := length target_reg in
  let cmds := fst (do_addition_with_same_size_and_no_controls
                     input_reg target_reg []) in
  length (filter is_cnots cmds) = 2%nat
  /\ length (filter is_cnot cmds) = (2 * n - 1)%nat
  /\ length (filter is_cswap cmds) = (2 * n - 2)%nat
  /\ length cmds = (4 * n - 1)%nat
  /\ Forall (fun c => length (controls c) = 1%nat) cmds.
Proof.
  intros Hlen Hn n cmds. unfold cmds, n.
  rewrite do_addition_with_same_size_emits by exact Hlen. cbn [fst app].
  split; [| split; [| split; [| split]]].
  4: now apply same_size_commands_count.
  all: destruct (same_size_commands_split input_reg target_reg Hlen Hn)
         as (lo & c & tlo & th & -> & -> & Hlo & ->);
       unfold five_phases, ripple_forward, ripple_backward.
  - rewrite !filter_app, !length_app.
    rewrite !(filter_flat_map_length is_cnots _ 0) by reflexivity.
    cbn. lia.
  - rewrite !filter_app, !length_app.
    rewrite !(filter_flat_map_length is_cnot _ 1) by reflexivity.
    rewrite length_rev, length_combine. cbn. lia.
  - rewrite !filter_app, !length_app.
    rewrite !(filter_flat_map_length is_cswap _ 1) by reflexivity.
    rewrite length_rev, length_combine. cbn. lia.
  - rewrite !Forall_app.
    split; [| split; [| split; [| split]]];
      try (apply Forall_flat_map_intro; intros p _);
      repeat constructor.
Qed.

Lemma adder_gate_inventory_witness :
  let n := length [3; 4; 5]%nat in
  let cmds := fst (do_addition_with_same_size_and_no_controls
                     [0; 1; 2]%nat [3; 4; 5]%nat []) in
  length (filter is_cnots cmds) = 2%nat
  /\ length (filter is_cnot cmds) = (2 * n - 1)%nat
  /\ length (filter is_cswap cmds) = (2 * n - 2)%nat
  /\ length cmds = (4 * n - 1)%nat
  /\ Forall (fun c => length (controls c) = 1%nat) cmds.
Proof.
  apply (adder_gate_inventory [0; 1; 2]%nat [3; 4; 5]%nat).
  - reflexivity.
  - cbn. lia.
Defined.

(** X4.  The inverse of the adder subtracts: for two registers of [n]
    distinct qubits holding [a] and [b], the sequence [Dagger] makes of the
    adder's commands leaves [(b - a) mod 2^n] in the target register and
    every qubit outside the target register, the input register included, as
    it was. *)
Theorem dagger_of_adder_subtracts (n : nat) (input_reg target_reg : qureg)
    (a b : Z) (s : state) :
  length input_reg = n -> length target_reg = n ->
  well_formed input_reg target_reg ->
  value s input_reg = a -> value s target_reg = b ->
  exists cmds,
    Dagger (do_addition_with_same_size_and_no_controls input_reg target_reg)
      [] = (cmds, inr tt)
    /\ value (run cmds s) target_reg = (b - a) mod 2 ^ Z.of_nat n
    /\ value (run cmds s) input_reg = a
    /\ forall q, ~ In q target_reg -> run cmds s q = s q.
Proof.
  intros Hi Ht Hwf Ha Hb.
  assert (Hlen : length input_reg = length target_reg) by congruence.
  exists (rev (same_size_commands input_reg target_reg)).
  destruct (reversed_commands_subtract _ _ Hlen Hwf s) as [Hframe Hval].
  split; [| split; [| split]].
  - rewrite (Dagger_emits _ (same_size_commands input_reg target_reg));
      [reflexivity |].
    now rewrite do_addition_with_same_size_emits.
  - now rewrite Hval, Ha, Hb, Ht.
  - rewrite <- Ha. apply value_ext. intros q Hq. apply Hframe.
    now apply (well_formed_disjoint input_reg).
  - exact Hframe.
Qed.

Lemma dagger_of_adder_subtracts_witness :
  exists cmds,
    Dagger (do_addition_with_same_size_and_no_controls
              [0; 1; 2]%nat [3; 4; 5]%nat) [] = (cmds, inr tt)
    /\ value (run cmds (store [0; 1; 2]%nat 5
                          (store [3; 4; 5]%nat 2 (fun _ => false))))
             [3; 4; 5]%nat = (2 - 5) mod 2 ^ Z.of_nat 3
    /\ value (run cmds (store [0; 1; 2]%nat 5
                          (store [3; 4; 5]%nat 2 (fun _ => false))))
             [0; 1; 2]%nat = 5
    /\ forall q, ~ In q [3; 4; 5]%nat ->
         run cmds (store [0; 1; 2]%nat 5
                     (store [3; 4; 5]%nat 2 (fun _ => false))) q =
         store [0; 1; 2]%nat 5 (store [3; 4; 5]%nat 2 (fun _ => false)) q.
Proof.
  apply (dagger_of_adder_subtracts 3 [0; 1; 2]%nat [3; 4; 5]%nat 5 2).
  - reflexivity.
  - reflexivity.
  - unfold well_formed. repeat (constructor; [cbn; lia |]). constructor.
  - reflexivity.
  - reflexivity.
Defined.

(** X5.  The inverse is two-sided: the inverted sequence followed by the
    adder's own sequence also returns every qubit to its original value, so
    the adder acts as a bijection on the bit states. *)
Theorem inverse_then_addition_is_identity (input_reg target_reg : qureg) :
  length input_reg = length target_reg ->
  well_formed input_reg target_reg ->
  exists cmds,
    (Dagger (do_addition_with_same_size_and_no_controls input_reg target_reg)
     ;; do_addition_with_same_size_and_no_controls input_reg target_reg)
      [] = (cmds, inr tt)
    /\ forall (s : state) (q : qubit), run cmds s q = s q.
Proof.
  intros Hlen Hwf.
  exists (rev (same_size_commands input_reg target_reg)
          ++ same_size_commands input_reg target_reg).
  split.
  - erewrite bind_ok.
    2:{ apply Dagger_emits. now rewrite do_addition_with_same_size_emits. }
    now rewrite do_addition_with_same_size_emits.
  - intros s. now apply reverse_then_run.
Qed.

Lemma inverse_then_addition_is_identity_witness :
  exists cmds,
    (Dagger (do_addition_with_same_size_and_no_controls
               [0; 1; 2]%nat [3; 4; 5]%nat)
     ;; do_addition_with_same_size_and_no_controls
          [0; 1; 2]%nat [3; 4; 5]%nat)
      [] = (cmds, inr tt)
    /\ forall (s : state) (q : qubit), run cmds s q = s q.
Proof.
  apply (inverse_then_addition_is_identity [0; 1; 2]%nat [3; 4; 5]%nat).
  - reflexivity.
  - unfold well_formed. repeat (constructor; [cbn; lia |]). constructor.
Defined.

(** X6.  Phases 2 to 4 are an adder with carry-in: the commands between
    the two dirty-MSB corrections add the low input qubits
    [input_reg[:-1]] and the bit of the carry qubit into the target
    register, modulo [2^n], and leave every other qubit, the carry qubit
    included, as it was. *)
Theorem middle_phases_add_with_carry_in (input_reg target_reg : qureg) :
  (1 <= length target_reg)%nat ->
  length input_reg = length target_reg ->
  well_formed input_reg target_reg ->
  exists carry_bit first middle last,
    getitem input_reg (-1) [] = ([], inr carry_bit)
    /\ do_addition_with_same_size_and_no_controls input_reg target_reg [] =
         ([first] ++ middle ++ [last], inr tt)
    /\ forall s : state,
         (forall q, ~ In q target_reg -> run middle s q = s q)
         /\ value (run middle s) target_reg =
            (value s target_reg + value s (removelast input_reg)
             + Z.b2z (s carry_bit))
              mod 2 ^ Z.of_nat (length target_reg).
Proof.
  intros Hn Hlen Hwf.
  assert (Hii : input_reg <> []) by (intros ->; cbn in Hlen; lia).
  pose proof (getitem_last input_reg O [] Hii) as Hcarry.
  pose proof (do_addition_with_same_size_emits input_reg target_reg [] Hlen)
    as Hemit. cbn [app] in Hemit.
  destruct (same_size_commands_split input_reg target_reg Hlen Hn)
    as (lo & c & tlo & th & -> & -> & Hlo & Hfive).
  rewrite Hfive, five_phases_nested in Hemit.
  rewrite last_last in Hcarry. rewrite removelast_last.
  exists c, (cnots c (rev (lo ++ tlo ++ [th]))),
    (ripple c (combine lo tlo) [cnot c th]),
    (cnots c (lo ++ tlo ++ [th])).
  split; [exact Hcarry |]. split; [exact Hemit |].
  intros s.
  destruct (well_formed_split _ _ _ _ Hwf) as (Hnd & _ & _).
  pose proof (ripple_adds c th (combine lo tlo)) as Hrip.
  rewrite (map_fst_combine _ _ Hlo), (map_snd_combine _ _ Hlo) in Hrip.
  destruct (Hrip Hnd s) as [Hframe Hval].
  split; [exact Hframe |].
  rewrite Hval, length_combine, <- Hlo, Nat.min_id, length_app, <- Hlo.
  cbn [length]. now replace (length lo + 1)%nat with (S (length lo)) by lia.
Qed.

Lemma middle_phases_add_with_carry_in_witness :
  exists carry_bit first middle last,
    getitem [0; 1; 2]%nat (-1) [] = ([], inr carry_bit)
    /\ do_addition_with_same_size_and_no_controls
         [0; 1; 2]%nat [3; 4; 5]%nat [] =
         ([first] ++ middle ++ [last], inr tt)
    /\ forall s : state,
         (forall q, ~ In q [3; 4; 5]%nat -> run middle s q = s q)
         /\ value (run middle s) [3; 4; 5]%nat =
            (value s [3; 4; 5]%nat + value s (removelast [0; 1; 2]%nat)
             + Z.b2z (s carry_bit))
              mod 2 ^ Z.of_nat (length [3; 4; 5]%nat).
Proof.
  apply (middle_phases_add_with_carry_in [0; 1; 2]%nat [3; 4; 5]%nat).
  - cbn. lia.
  - reflexivity.
  - unfold well_formed. repeat (constructor; [cbn; lia |]). constructor.
Defined.

(** * Further properties of the wrappers *)

(** X7.  Subtraction never emits: for all registers, controls and any number
    of frames, [do_subtraction] and [do_subtraction_no_controls] end with the
    exception of the addition they wrap and leave the engine as it was;
    for [do_subtraction_no_controls] that is [RecursionError] when the input
    register is at least as long as the target register, and
    [NotImplementedError] otherwise. *)
Theorem subtraction_wrappers_emit_nothing (depth : nat)
    (input_reg target_reg : qureg) (dirty : qubit) (ctrls : list qubit)
    (e : engine) :
  (exists x,
     do_subtraction (S depth) input_reg target_reg dirty ctrls e = (e, inl x))
  /\ do_subtraction_no_controls (S depth) input_reg target_reg e =
     (e, inl (if (length target_reg <=? length input_reg)%nat
              then RecursionError else NotImplementedError)).
Proof.
  destruct (do_subtraction_raises (S depth) input_reg target_reg dirty ctrls e)
    as [x [H1 H2]].
  split; [now exists x | exact H2].
Qed.

(** X8.  Controls need a longer input: with at least one control and an
    input register no longer than the target register, [do_addition] raises
    [NotImplementedError] before sending anything, because the target
    extended by the dirty qubit is longer than the input; registers of equal
    length are such a case. *)
Theorem controlled_addition_needs_longer_input (depth : nat)
    (input_reg target_reg : qureg) (dirty : qubit) (ctrls : list qubit)
    (e : engine) :
  (1 <= length ctrls)%nat ->
  (length input_reg <= length target_reg)%nat ->
  do_addition (S depth) input_reg target_reg dirty ctrls e =
  (e, inl NotImplementedError).
Proof.
  intros Hk Hlen. unfold do_addition.
  destruct (Nat.eqb_spec (length ctrls) 0) as [H0 | _]; [lia |].
  cbn [range seq for_each].
  apply bind_raise, bind_raise, do_addition_no_controls_shorter.
  cbn [app length]. lia.
Qed.

Lemma controlled_addition_needs_longer_input_witness :
  do_addition 1000 [0; 1; 2]%nat [3; 4; 5]%nat 6%nat [7; 8]%nat [] =
  ([], inl NotImplementedError).
Proof.
  apply (controlled_addition_needs_longer_input 999 [0; 1; 2]%nat
           [3; 4; 5]%nat 6%nat [7; 8]%nat []).
  - cbn. lia.
  - cbn. lia.
Defined.

(** X9.  The two inversions of a round: the inversion of [expanded] under
    the controls followed by the plain inversion of [expanded] inverts each
    qubit of [expanded] exactly when some control is 0, and changes nothing
    when all controls are 1.  The controls are not among the qubits of
    [expanded], which are distinct. *)
Theorem inversions_invert_unless_enabled (ctrls : list qubit)
    (expanded : qureg) (s : state) (q : qubit) :
  (forall x, In x expanded -> ~ In x ctrls) ->
  NoDup expanded ->
  run [Cmd ctrls (All_X expanded); Cmd [] (All_X expanded)] s q =
  if enabled ctrls s then s q
  else if in_dec Nat.eq_dec q expanded then negb (s q) else s q.
Proof.
  intros Hapart Hnd. rewrite (run_invert expanded ctrls Hapart).
  destruct (enabled ctrls s); [reflexivity |].
  destruct (in_dec Nat.eq_dec q expanded) as [Hq | Hq].
  - rewrite (hits_present _ _ Hnd Hq). now destruct (s q).
  - rewrite (hits_absent _ _ Hq). now destruct (s q).
Qed.

Lemma inversions_invert_unless_enabled_witness :
  run [Cmd [5; 6]%nat (All_X [0; 1; 2]%nat); Cmd [] (All_X [0; 1; 2]%nat)]
      (fun x => Nat.eqb x 5) 1%nat =
  if enabled [5; 6]%nat (fun x => Nat.eqb x 5) then Nat.eqb 1 5
  else if in_dec Nat.eq_dec 1%nat [0; 1; 2]%nat then negb (Nat.eqb 1 5)
       else Nat.eqb 1 5.
Proof.
  apply (inversions_invert_unless_enabled [5; 6]%nat [0; 1; 2]%nat
           (fun x => Nat.eqb x 5) 1%nat).
  - cbn. lia.
  - repeat (constructor; [cbn; lia |]). constructor.
Defined.

Section LoopOfDoAddition.

Lemma do_addition_is_loop depth input_reg target_reg dirty ctrls :
  (1 <= length ctrls)%nat ->
  do_addition depth input_reg target_reg dirty ctrls =
  double_add_invert_loop
    (do_addition_no_controls depth input_reg ([dirty] ++ target_reg))
    ctrls ([dirty] ++ target_reg).
Proof.
  intros Hk. unfold do_addition.
  destruct (Nat.eqb_spec (length ctrls) 0) as [H0 | _]; [lia | reflexivity].
Qed.

End LoopOfDoAddition.

(** X10.  The double-add-invert loop around the equal-size adder is the
    controlled addition.  With at least one control, [do_addition] is its
    loop around the call of [do_addition_no_controls]; when the pass of each
    round is the equal-size adder on [input_reg[:len(expanded)]] and
    [expanded = [dirty] + target_reg], the loop runs to the end and its
    commands leave [(target + input) mod 2^n] in the target register and the
    dirty qubit unchanged if all controls are 1, and every qubit unchanged
    if some control is 0.  The input register is at least as long as
    [expanded], the qubits of the two are distinct and no control is in
    [expanded]. *)
Theorem loop_around_adder_is_controlled_addition
    (input_reg target_reg : qureg) (dirty : qubit) (ctrls : list qubit) :
  let expanded := [dirty] ++ target_reg in
  let adder := do_addition_with_same_size_and_no_controls
                 (firstn (length expanded) input_reg) expanded in
  (1 <= length ctrls)%nat ->
  (length expanded <= length input_reg)%nat ->
  well_formed input_reg expanded ->
  (forall q, In q expanded -> ~ In q ctrls) ->
  (forall depth,
     do_addition depth input_reg target_reg dirty ctrls =
     double_add_invert_loop
       (do_addition_no_controls depth input_reg expanded) ctrls expanded)
  /\ exists cmds,
       double_add_invert_loop adder ctrls expanded [] = (cmds, inr tt)
       /\ forall s : state,
            (enabled ctrls s = true ->
             value (run cmds s) target_reg =
               (value s target_reg + value s input_reg)
                 mod 2 ^ Z.of_nat (length target_reg)
             /\ run cmds s dirty = s dirty
             /\ forall q, ~ In q expanded -> run cmds s q = s q)
            /\ (enabled ctrls s = false ->
                forall q, run cmds s q = s q).
Proof.
  intros expanded adder Hk Hlong Hwf Hapart.
  split; [intros depth; now apply do_addition_is_loop |].
  exists (double_add_invert
            (same_size_commands (firstn (length expanded) input_reg) expanded)
            ctrls expanded).
  split.
  - unfold double_add_invert_loop.
    rewrite (loop_emits adder
               (same_size_commands (firstn (length expanded) input_reg)
                                   expanded)); [reflexivity |].
    intros e. apply do_addition_with_same_size_emits.
    rewrite length_firstn. lia.
  - intros s.
    destruct (double_pass_is_controlled_addition input_reg target_reg dirty
                ctrls Hlong Hwf Hapart s) as [Hon Hoff].
    split; [| exact Hoff].
    intros En. destruct (Hon En) as (Hd & Hv & Hout). now repeat split.
Qed.

Lemma loop_around_adder_is_controlled_addition_witness :
  let expanded := [3]%nat ++ [4; 5]%nat in
  let adder := do_addition_with_same_size_and_no_controls
                 (firstn (length expanded) [0; 1; 2]%nat) expanded in
  (forall depth,
     do_addition depth [0; 1; 2]%nat [4; 5]%nat 3%nat [6]%nat =
     double_add_invert_loop
       (do_addition_no_controls depth [0; 1; 2]%nat expanded)
       [6]%nat expanded)
  /\ exists cmds,
       double_add_invert_loop adder [6]%nat expanded [] = (cmds, inr tt)
       /\ forall s : state,
            (enabled [6]%nat s = true ->
             value (run cmds s) [4; 5]%nat =
               (value s [4; 5]%nat + value s [0; 1; 2]%nat)
                 mod 2 ^ Z.of_nat (length [4; 5]%nat)
             /\ run cmds s 3%nat = s 3%nat
             /\ forall q, ~ In q expanded -> run cmds s q = s q)
            /\ (enabled [6]%nat s = false ->
                forall q, run cmds s q = s q).
Proof.
  apply (loop_around_adder_is_controlled_addition
           [0; 1; 2]%nat [4; 5]%nat 3%nat [6]%nat).
  - cbn. lia.
  - cbn. lia.
  - unfold well_formed. repeat (constructor; [cbn; lia |]). constructor.
  - cbn. lia.
Defined.

(** * The registered rules *)

Section RulesNeverEmit.

Import Rules.

Lemma item_cases {A} (xs : list A) (i : nat) (e : engine) :
  (exists x, item xs i e = (e, inr x)) \/ item xs i e = (e, inl IndexError).
Proof.
  unfold item. destruct (nth_error xs i) as [x |]; [left | right].
  - now exists x.
  - reflexivity.
Qed.

(** Reading the operands of a command either raises [IndexError] or hands
    them to a wrapper that raises. *)
Lemma operands_then_raise (cmd : Command) (k : qureg -> qureg -> M unit) e :
  (forall input_reg target_reg, exists x, k input_reg target_reg e = (e, inl x)) ->
  exists x,
    (input_reg <- item (qubits cmd) 0 ;;
     target_reg <- item (qubits cmd) 1 ;;
     k input_reg target_reg) e = (e, inl x).
Proof.
  intros Hk.
  destruct (item_cases (qubits cmd) 0 e) as [[i Hi] | Hi].
  2:{ exists IndexError. now apply bind_raise. }
  rewrite (bind_ok _ _ _ _ _ Hi).
  destruct (item_cases (qubits cmd) 1 e) as [[t Ht] | Ht].
  2:{ exists IndexError. now apply bind_raise. }
  rewrite (bind_ok _ _ _ _ _ Ht). apply Hk.
Qed.

Lemma dirty_then_raise (cmd : Command) (k : qubit -> M unit) e :
  (forall dirty, exists x, k dirty e = (e, inl x)) ->
  exists x, (dirty <- item (untouched_qubits cmd) 0 ;; k dirty) e = (e, inl x).
Proof.
  intros Hk.
  destruct (item_cases (untouched_qubits cmd) 0 e) as [[d Hd] | Hd].
  - rewrite (bind_ok _ _ _ _ _ Hd). apply Hk.
  - exists IndexError. now apply bind_raise.
Qed.

End RulesNeverEmit.

(** X11.  No registered rule ever produces a circuit: for each of the four
    rules of [all_defined_decomposition_rules], every command and any number
    of frames, the decomposer ends with an exception ([IndexError] from
    reading the command, or the exception of the wrapper it calls) and the
    engine is as it was. *)
Theorem no_rule_ever_emits (r : Rules.DecompositionRule) (depth : nat)
    (cmd : Rules.Command) (e : engine) :
  In r Rules.all_defined_decomposition_rules ->
  exists x, Rules.gate_decomposer r depth cmd e = (e, inl x).
Proof.
  unfold Rules.all_defined_decomposition_rules.
  intros [<- | [<- | [<- | [<- | []]]]]; cbn [Rules.gate_decomposer].
  - apply operands_then_raise. intros i t.
    apply (dirty_then_raise cmd (fun d =>
             do_addition depth i t d (Rules.control_qubits cmd))).
    intros d. apply do_addition_raises.
  - apply operands_then_raise. intros i t.
    apply do_addition_no_controls_raises.
  - apply operands_then_raise. intros i t.
    apply (dirty_then_raise cmd (fun d =>
             do_subtraction depth i t d (Rules.control_qubits cmd))).
    intros d.
    destruct (do_subtraction_raises depth i t d (Rules.control_qubits cmd) e)
      as [x [H _]].
    now exists x.
  - apply operands_then_raise. intros i t.
    destruct (do_subtraction_raises depth i t O [] e) as [_ [_ H]].
    eexists. exact H.
Qed.

Lemma no_rule_ever_emits_witness :
  exists x,
    Rules.decompose_addition 1000
      {| Rules.qubits := [[0; 1; 2]; [3; 4; 5]]%nat;
         Rules.control_qubits := [6]%nat;
         Rules.untouched_qubits := [7]%nat |} [] = ([], inl x).
Proof.
  apply (no_rule_ever_emits
           {| Rules.gate_class := Tags.AdditionGate;
              Rules.gate_decomposer := Rules.decompose_addition;
              Rules.max_controls := None;
              Rules.allocated_but_untouched_bits_required := Some 1%nat |}
           1000
           {| Rules.qubits := [[0; 1; 2]; [3; 4; 5]]%nat;
              Rules.control_qubits := [6]%nat;
              Rules.untouched_qubits := [7]%nat |} []).
  cbn. left. reflexivity.
Defined.

(** * The increment the test expects *)

Section Increment.

Import IncrementTest.

Lemma minus_then_minus_complement M t d :
  0 < M -> 0 <= d < M ->
  ((t - d) mod M - (M - 1 - d)) mod M = (t + 1) mod M.
Proof.
  intros HM Hd.
  rewrite Zminus_mod_idemp_l.
  replace (t - d - (M - 1 - d)) with (t + 1 + (-1) * M) by lia.
  apply Z_mod_plus_full.
Qed.

Variables (target dirty : qureg).
Variable subtract : qureg -> qureg -> list command.
Variable multi_not : qureg -> list command.

Hypothesis same_length : length dirty = length target.
Hypothesis apart : forall q, In q dirty -> ~ In q target.
Hypothesis subtract_subtracts : forall s,
  (forall q, ~ In q target -> run (subtract dirty target) s q = s q)
  /\ value (run (subtract dirty target) s) target =
     (value s target - value s dirty) mod 2 ^ Z.of_nat (length target).
Hypothesis multi_not_inverts : forall s q,
  run (multi_not dirty) s q =
  if in_dec Nat.eq_dec q dirty then negb (s q) else s q.

Lemma expected_commands_increment s :
  let cmds := decomposed subtract multi_not
                (expected_received_commands target dirty) in
  value (run cmds s) target =
    (value s target + 1) mod 2 ^ Z.of_nat (length target)
  /\ forall q, ~ In q target -> run cmds s q = s q.
Proof.
  intros cmds. unfold cmds, decomposed, expected_received_commands.
  cbn [flat_map]. rewrite app_nil_r, !run_app.
  set (s1 := run (subtract dirty target) s).
  set (s2 := run (multi_not dirty) s1).
  set (s3 := run (subtract dirty target) s2).
  destruct (subtract_subtracts s) as [Hf1 Hv1]. fold s1 in Hf1, Hv1.
  destruct (subtract_subtracts s2) as [Hf3 Hv3]. fold s3 in Hf3, Hv3.
  assert (Hnot : forall s' q, ~ In q dirty -> run (multi_not dirty) s' q = s' q).
  { intros s' q Hq. rewrite multi_not_inverts.
    now destruct (in_dec Nat.eq_dec q dirty). }
  assert (Hinv : forall s' q, In q dirty ->
            run (multi_not dirty) s' q = negb (s' q)).
  { intros s' q Hq. rewrite multi_not_inverts.
    now destruct (in_dec Nat.eq_dec q dirty). }
  assert (Hd1 : value s1 dirty = value s dirty).
  { apply value_ext. intros q Hq. apply Hf1. now apply apart. }
  assert (Hd2 : value s2 dirty =
                2 ^ Z.of_nat (length target) - 1 - value s dirty).
  { rewrite <- same_length, <- Hd1. apply value_inverted.
    intros q Hq. now apply Hinv. }
  assert (Ht2 : value s2 target = value s1 target).
  { apply value_ext. intros q Hq. apply Hnot.
    intros Hin. exact (apart q Hin Hq). }
  split.
  - rewrite (value_ext _ s3 target).
    2:{ intros q Hq. apply Hnot. intros Hin. exact (apart q Hin Hq). }
    rewrite Hv3, Ht2, Hd2, Hv1.
    apply minus_then_minus_complement.
    + apply Z.pow_pos_nonneg; lia.
    + rewrite <- same_length. apply value_range.
  - intros q Hq.
    destruct (in_dec Nat.eq_dec q dirty) as [Hin | Hout].
    + rewrite (Hinv s3 q Hin), (Hf3 q Hq). unfold s2.
      rewrite (Hinv s1 q Hin), (Hf1 q Hq). apply negb_involutive.
    + rewrite (Hnot s3 q Hout), (Hf3 q Hq). unfold s2.
      now rewrite (Hnot s1 q Hout), (Hf1 q Hq).
Qed.

End Increment.

(** X12.  The command list the increment test expects is an increment:
    [Subtract(dirty, target)], [MultiNot(dirty)], [Subtract(dirty, target)],
    [MultiNot(dirty)], with any decomposition under which [Subtract]
    subtracts [dirty] from [target] modulo [2^n] and [MultiNot] inverts the
    qubits of [dirty], leaves [(target + 1) mod 2^n] in the target register
    and every other qubit, the dirty register included, as it was; the
    registers have the same length and no qubit in common.  The reversed
    sequence of the equal-size adder and [All(X)] are such
    decompositions. *)
Theorem expected_increment_adds_one (target dirty : qureg)
    (subtract : qureg -> qureg -> list command)
    (multi_not : qureg -> list command) (s : state) :
  length dirty = length target ->
  (forall q, In q dirty -> ~ In q target) ->
  (forall s',
     (forall q, ~ In q target -> run (subtract dirty target) s' q = s' q)
     /\ value (run (subtract dirty target) s') target =
        (value s' target - value s' dirty)
          mod 2 ^ Z.of_nat (length target)) ->
  (forall s' q,
     run (multi_not dirty) s' q =
     if in_dec Nat.eq_dec q dirty then negb (s' q) else s' q) ->
  let cmds := IncrementTest.decomposed subtract multi_not
                (IncrementTest.expected_received_commands target dirty) in
  value (run cmds s) target =
    (value s target + 1) mod 2 ^ Z.of_nat (length target)
  /\ forall q, ~ In q target -> run cmds s q = s q.
Proof.
  intros Hlen Hapart Hsub Hnot.
  exact (expected_commands_increment target dirty subtract multi_not
           Hlen Hapart Hsub Hnot s).
Qed.

Lemma expected_increment_adds_one_witness :
  let target := [0; 1; 2; 3]%nat in
  let dirty := [4; 5; 6; 7]%nat in
  let s := store target 15 (store dirty 9 (fun _ => false)) in
  let cmds := IncrementTest.decomposed
                (fun i t => rev (same_size_commands i t))
                (fun reg => [Cmd [] (All_X reg)])
                (IncrementTest.expected_received_commands target dirty) in
  value (run cmds s) target =
    (value s target + 1) mod 2 ^ Z.of_nat (length target)
  /\ forall q, ~ In q target -> run cmds s q = s q.
Proof.
  intros target dirty s.
  assert (Hwf : well_formed dirty target).
  { unfold well_formed, dirty, target.
    repeat (constructor; [cbn; lia |]). constructor. }
  apply (expected_increment_adds_one target dirty
           (fun i t => rev (same_size_commands i t))
           (fun reg => [Cmd [] (All_X reg)]) s).
  - reflexivity.
  - intros q Hq. exact (well_formed_disjoint dirty target q Hwf Hq).
  - intros s'. exact (reversed_commands_subtract dirty target eq_refl Hwf s').
  - intros s' q. cbn [run fold_left].
    rewrite apply_All_X by (intros x _ []).
    cbn [enabled forallb].
    destruct (in_dec Nat.eq_dec q dirty) as [Hq | Hq].
    + rewrite hits_present; [now destruct (s' q) | | exact Hq].
      exact (NoDup_app_remove_r _ _ Hwf).
    + rewrite hits_absent by exact Hq. now destruct (s' q).
Defined.

(** X13.  Truncating the input loses nothing: the equal-size adder run on
    [input_reg[:len(target_reg)]], the slice [do_addition_no_controls] takes
    of an input register at least as long as the target, leaves
    [(input + target) mod 2^n] in the target register, for the value of the
    whole input register, and every qubit of the input register, the high
    ones included, as it was. *)
Theorem adder_on_truncated_input_adds_whole_input
    (input_reg target_reg : qureg) (s : state) :
  (length target_reg <= length input_reg)%nat ->
  well_formed input_reg target_reg ->
  exists cmds,
    do_addition_with_same_size_and_no_controls
      (firstn (length target_reg) input_reg) target_reg [] = (cmds, inr tt)
    /\ value (run cmds s) target_reg =
       (value s input_reg + value s target_reg)
         mod 2 ^ Z.of_nat (length target_reg)
    /\ forall q, In q input_reg -> run cmds s q = s q.
Proof.
  intros Hlong Hwf.
  assert (Hlen : length (firstn (length target_reg) input_reg)
                 = length target_reg) by (rewrite length_firstn; lia).
  pose proof (well_formed_firstn (length target_reg) _ _ Hwf) as Hwf'.
  exists (same_size_commands (firstn (length target_reg) input_reg)
                             target_reg).
  destruct (same_size_commands_add _ _ Hlen Hwf' s) as [Hframe Hval].
  split; [| split].
  - now rewrite do_addition_with_same_size_emits.
  - rewrite Hval.
    rewrite <- (firstn_skipn (length target_reg) input_reg) at 2.
    rewrite value_app, Hlen.
    rewrite <- Z.add_assoc,
      (Z.add_comm (2 ^ Z.of_nat (length target_reg) * _)), Z.add_assoc.
    rewrite (Z.mul_comm (2 ^ Z.of_nat (length target_reg))).
    now rewrite Z_mod_plus_full.
  - intros q Hq. apply Hframe.
    exact (well_formed_disjoint _ _ q Hwf Hq).
Qed.

Lemma adder_on_truncated_input_adds_whole_input_witness :
  exists cmds,
    do_addition_with_same_size_and_no_controls
      (firstn (length [8; 9; 10; 11]%nat) [0; 1; 2; 3; 4; 5; 6; 7]%nat)
      [8; 9; 10; 11]%nat [] = (cmds, inr tt)
    /\ value (run cmds (store [0; 1; 2; 3; 4; 5; 6; 7]%nat 214
                          (store [8; 9; 10; 11]%nat 3 (fun _ => false))))
             [8; 9; 10; 11]%nat =
       (value (store [0; 1; 2; 3; 4; 5; 6; 7]%nat 214
                 (store [8; 9; 10; 11]%nat 3 (fun _ => false)))
              [0; 1; 2; 3; 4; 5; 6; 7]%nat
        + value (store [0; 1; 2; 3; 4; 5; 6; 7]%nat 214
                   (store [8; 9; 10; 11]%nat 3 (fun _ => false)))
                [8; 9; 10; 11]%nat)
         mod 2 ^ Z.of_nat (length [8; 9; 10; 11]%nat)
    /\ forall q, In q [0; 1; 2; 3; 4; 5; 6; 7]%nat ->
         run cmds (store [0; 1; 2; 3; 4; 5; 6; 7]%nat 214
                     (store [8; 9; 10; 11]%nat 3 (fun _ => false))) q =
         store [0; 1; 2; 3; 4; 5; 6; 7]%nat 214
           (store [8; 9; 10; 11]%nat 3 (fun _ => false)) q.
Proof.
  apply (adder_on_truncated_input_adds_whole_input
           [0; 1; 2; 3; 4; 5; 6; 7]%nat [8; 9; 10; 11]%nat).
  - cbn. lia.
  - unfold well_formed. repeat (constructor; [cbn; lia |]). constructor.
Defined.
